(** * we.texturing.TileCache: the level 2 tile cache and its load queue

    A shallow embedding of [we.texturing.TileCache]
    (src/wedemo/ui/tileproviderselector.js, second part) and the properties
    of its operations.

    Tile objects are JavaScript objects shared between the map [tileMap_],
    the array [loadRequests_], the provider and the caller.  The embedding
    keeps them in a store addressed by references ([TileRef]), so that an
    assignment through one alias is seen through all of them.

    Numbers (request times, sizes, the clock) are modelled as [Z]. *)

From Stdlib Require Import ZArith Lia.
From stdpp Require Import base option list sorting gmap.

Local Open Scope Z_scope.

(** ** Tiles *)

Module Tile.

(** [we.texturing.Tile.State] *)
Inductive State := PREPARING | LOADING | LOADED | ERROR.

#[global] Instance State_eq_dec : EqDecision State.
Proof. solve_decision. Defined.

(** Modelled from the spec: the class [we.texturing.Tile] is not among the
    sources.
    A tile has its coordinates, a state and the time of its most recent
    request. *)
Record t := mk {
  zoom : Z;
  x : Z;
  y : Z;
  requestTime : Z;
  state : State;
}.

(** Modelled from the spec: the key is a composite of zoom, x and y, and
    the key function is collision-free. *)
Abbreviation Key := (Z * Z * Z)%type (only parsing).

Definition createKey (zoom x y : Z) : Key := (zoom, x, y).

Definition getKey (tile : t) : Key := createKey (zoom tile) (x tile) (y tile).

(** Modelled from the spec: the constructor [new Tile(zoom, x, y,
    requestTime)] gives a tile in state Preparing. *)
Definition new (zoom x y requestTime : Z) : t :=
  mk zoom x y requestTime PREPARING.

(** [tile.requestTime = requestTime] *)
Definition set_requestTime (requestTime : Z) (tile : t) : t :=
  mk (zoom tile) (x tile) (y tile) requestTime (state tile).

(** [tile.state = s] *)
Definition set_state (s : State) (tile : t) : t :=
  mk (zoom tile) (x tile) (y tile) (requestTime tile) s.

End Tile.

Import Tile (PREPARING, LOADING, LOADED, ERROR).

(** A reference to a Tile object: its index in the store of objects. *)
Abbreviation TileRef := nat (only parsing).

(** ** Arrays of the closure library *)

(** [Array.prototype.pop]: the array without its last element, and that
    element; nothing on the empty array. *)
Fixpoint array_pop {A} (l : list A) : option (list A * A) :=
  match l with
  | [] => None
  | a :: l' =>
      match array_pop l' with
      | None => Some ([], a)
      | Some (q, b) => Some (a :: q, b)
      end
  end.

(** [goog.array.remove(arr, obj)]: removes the first occurrence of [obj]. *)
Fixpoint array_remove (obj : TileRef) (arr : list TileRef) : list TileRef :=
  match arr with
  | [] => []
  | a :: arr' => if decide (a = obj) then arr' else a :: array_remove obj arr'
  end.

(** The request time read through a reference. *)
Definition requestTimeAt (objs : list Tile.t) (r : TileRef) : Z :=
  from_option Tile.requestTime 0 (objs !! r).

(** The order of the comparison function
    [function(tile1, tile2) { return tile1.requestTime - tile2.requestTime; }]:
    [tile1] may come before [tile2]. *)
Definition byRequestTime (objs : list Tile.t) : relation TileRef :=
  λ r1 r2, requestTimeAt objs r1 ≤ requestTimeAt objs r2.

#[global] Instance byRequestTime_dec objs : RelDecision (byRequestTime objs).
Proof. intros r1 r2. unfold byRequestTime. apply _. Defined.

(** [goog.array.sort(arr, compare)] with the comparison above.  The sort of
    the library is the one of the JavaScript engine; the proofs below use
    of it that it gives a permutation in ascending order, and nothing on
    the order of tiles of equal request times. *)
Definition sortByRequestTime (objs : list Tile.t) (arr : list TileRef) :
    list TileRef :=
  merge_sort (byRequestTime objs) arr.

(** The filter of [cleanCache]: the states a tile may be removed in. *)
Definition cleanableState (s : Tile.State) : Prop :=
  s = LOADED ∨ s = PREPARING ∨ s = ERROR.

#[global] Instance cleanableState_dec s : Decision (cleanableState s).
Proof. unfold cleanableState. apply _. Defined.

Definition cleanableAt (objs : list Tile.t) (r : TileRef) : Prop :=
  from_option (λ tile, cleanableState (Tile.state tile)) False (objs !! r).

#[global] Instance cleanableAt_dec objs r : Decision (cleanableAt objs r).
Proof. unfold cleanableAt. destruct (objs !! r); simpl; apply _. Defined.

(** The tiles the provider is loading. *)
Definition loadingAt (objs : list Tile.t) (r : TileRef) : Prop :=
  from_option (λ tile, Tile.state tile = LOADING) False (objs !! r).

#[global] Instance loadingAt_dec objs r : Decision (loadingAt objs r).
Proof. unfold loadingAt. destruct (objs !! r); simpl; apply _. Defined.

(** ** The cache *)

Section TileCache.

(** The tile provider is outside the cache.  [P] is its state,
    [loadingTileCounter] its counter of tiles in flight, and [loadTile]
    its answer to the offer of a tile together with its next state. *)
Context {P : Type}.
Variable loadingTileCounter : P → Z.
Variable loadTile : P → TileRef → Tile.t → bool * P.

Record TileCache := mkCache {
  (** the Tile objects created so far, by reference *)
  tiles : list Tile.t;
  (** [goog.structs.Map] from key to Tile *)
  tileMap_ : gmap Tile.Key TileRef;
  (** [Array.<we.texturing.Tile>] *)
  loadRequests_ : list TileRef;
  targetSize : Z;
  tileProvider_ : P;
  tileProviderResetTime_ : Z;
  (** the calls of [tileCachedHandler], oldest first *)
  cachedCalls : list TileRef;
  (** the calls of [tileProvider_.loadTile] with their results *)
  loadCalls : list (TileRef * bool);
  (** the calls of [tile.dispose()] *)
  disposeCalls : list TileRef;
}.

Definition with_tiles (objs : list Tile.t) (c : TileCache) : TileCache :=
  mkCache objs (tileMap_ c) (loadRequests_ c) (targetSize c)
    (tileProvider_ c) (tileProviderResetTime_ c)
    (cachedCalls c) (loadCalls c) (disposeCalls c).

Definition with_loadRequests (q : list TileRef) (c : TileCache) : TileCache :=
  mkCache (tiles c) (tileMap_ c) q (targetSize c)
    (tileProvider_ c) (tileProviderResetTime_ c)
    (cachedCalls c) (loadCalls c) (disposeCalls c).

(** The provider changes its own state, for one its counter. *)
Definition with_tileProvider (p : P) (c : TileCache) : TileCache :=
  mkCache (tiles c) (tileMap_ c) (loadRequests_ c) (targetSize c)
    p (tileProviderResetTime_ c)
    (cachedCalls c) (loadCalls c) (disposeCalls c).

(** [this.targetSize = n], the field is public. *)
Definition with_targetSize (n : Z) (c : TileCache) : TileCache :=
  mkCache (tiles c) (tileMap_ c) (loadRequests_ c) n
    (tileProvider_ c) (tileProviderResetTime_ c)
    (cachedCalls c) (loadCalls c) (disposeCalls c).

Definition setTileProvider (now : Z) (tileprovider : P) (c : TileCache) :
    TileCache :=
  mkCache (tiles c) ∅ [] (targetSize c)
    tileprovider now
    (cachedCalls c) (loadCalls c) (disposeCalls c).

(** The constructor, without its timer. *)
Definition new (now : Z) (tileprovider : P) : TileCache :=
  setTileProvider now tileprovider (mkCache [] ∅ [] 1024 tileprovider 0 [] [] []).

Definition getTileFromCache (key : Tile.Key) (c : TileCache) : option TileRef :=
  tileMap_ c !! key.

(** One turn of the loop of [cleanCache] on the tile [r] taken from the
    front of [cleanable]. *)
Definition cleanTile (r : TileRef) (c : TileCache) : TileCache :=
  match tiles c !! r with
  | Some tile =>
      mkCache (tiles c)
        (delete (Tile.getKey tile) (tileMap_ c))
        (if decide (Tile.state tile = PREPARING)
         then array_remove r (loadRequests_ c) else loadRequests_ c)
        (targetSize c) (tileProvider_ c) (tileProviderResetTime_ c)
        (cachedCalls c) (loadCalls c) (disposeCalls c ++ [r])
  | None => c
  end.

Fixpoint cleanLoop (cleanable : list TileRef) (c : TileCache) : TileCache :=
  match cleanable with
  | r :: cleanable' =>
      if decide (targetSize c < Z.of_nat (size (tileMap_ c)))
      then cleanLoop cleanable' (cleanTile r c)
      else c
  | [] => c
  end.

(** [this.tileMap_.getValues()] *)
Definition getValues (c : TileCache) : list TileRef :=
  (map_to_list (tileMap_ c)).*2.

Definition cleanCache (c : TileCache) : TileCache :=
  let cleanable := filter (cleanableAt (tiles c)) (getValues c) in
  cleanLoop (sortByRequestTime (tiles c) cleanable) c.

Definition retrieveTile (zoom x y requestTime : Z) (c : TileCache) :
    TileRef * TileCache :=
  let key := Tile.createKey zoom x y in
  match getTileFromCache key c with
  | None =>
      let r := length (tiles c) in
      (r, mkCache (tiles c ++ [Tile.new zoom x y requestTime])
            (<[key := r]> (tileMap_ c))
            (loadRequests_ c ++ [r])
            (targetSize c) (tileProvider_ c) (tileProviderResetTime_ c)
            (cachedCalls c) (loadCalls c) (disposeCalls c))
  | Some r =>
      (r, with_tiles (alter (Tile.set_requestTime requestTime) r (tiles c)) c)
  end.

Definition updateRequestTime (key : Tile.Key) (requestTime : Z)
    (c : TileCache) : TileCache :=
  match getTileFromCache key c with
  | Some r =>
      with_tiles (alter (Tile.set_requestTime requestTime) r (tiles c)) c
  | None => c
  end.

Definition tileLoaded_ (r : TileRef) (c : TileCache) : TileCache :=
  match tiles c !! r with
  | Some tile =>
      if decide (Tile.requestTime tile < tileProviderResetTime_ c)
      then with_tiles (alter (Tile.set_state ERROR) r (tiles c)) c
      else mkCache (tiles c) (tileMap_ c) (loadRequests_ c) (targetSize c)
             (tileProvider_ c) (tileProviderResetTime_ c)
             (cachedCalls c ++ [r]) (loadCalls c) (disposeCalls c)
  | None => c
  end.

(** The body of the loop of [purgeNotLoadedTiles] on the tile [r] shifted
    from the queue, [rest] being what the shift leaves. *)
Definition purgeTile (r : TileRef) (rest : list TileRef) (c : TileCache) :
    TileCache :=
  match tiles c !! r with
  | Some tile =>
      mkCache (tiles c)
        (delete (Tile.getKey tile) (tileMap_ c))
        rest
        (targetSize c) (tileProvider_ c) (tileProviderResetTime_ c)
        (cachedCalls c) (loadCalls c) (disposeCalls c ++ [r])
  | None => c
  end.

(** The loop of [purgeNotLoadedTiles]; [queue] is [loadRequests_] at the
    test of the loop. *)
Fixpoint purgeLoop (time : Z) (queue : list TileRef) (c : TileCache) :
    TileCache :=
  match queue with
  | r :: rest =>
      match tiles c !! r with
      | Some tile =>
          if decide (Tile.requestTime tile < time)
          then purgeLoop time rest (purgeTile r rest c)
          else c
      | None => c
      end
  | [] => c
  end.

(** [now] is the value of [goog.now()]. *)
Definition purgeNotLoadedTiles (now timeLimit : Z) (c : TileCache) :
    TileCache :=
  purgeLoop (now - timeLimit) (loadRequests_ c) c.

(** One turn of the loop of [processLoadRequests].

    Modelled from the spec: [we.texturing.TileProvider] is not among the
    sources; a tile the provider accepts goes to state Loading, a tile it
    declines is left as it is. *)
Definition loadStep (c : TileCache) : TileCache :=
  match array_pop (loadRequests_ c) with
  | Some (rest, r) =>
      match tiles c !! r with
      | Some tile =>
          let '(accepted, p) := loadTile (tileProvider_ c) r tile in
          if accepted
          then mkCache (alter (Tile.set_state LOADING) r (tiles c))
                 (tileMap_ c) rest (targetSize c) p
                 (tileProviderResetTime_ c)
                 (cachedCalls c) (loadCalls c ++ [(r, true)]) (disposeCalls c)
          else mkCache (tiles c)
                 (tileMap_ c) (rest ++ [r]) (targetSize c) p
                 (tileProviderResetTime_ c)
                 (cachedCalls c) (loadCalls c ++ [(r, false)]) (disposeCalls c)
      | None => c
      end
  | None => c
  end.

(** [for (var i = 0; i < n; i++)] *)
Fixpoint loadLoop (n : nat) (c : TileCache) : TileCache :=
  match n with
  | O => c
  | S n' => loadLoop n' (loadStep c)
  end.

(** The [n] of [processLoadRequests], on the sorted queue. *)
Definition loadBudget (tilesToBeLoading : Z) (c : TileCache) : Z :=
  Z.min (Z.of_nat (length (loadRequests_ c)))
        (tilesToBeLoading - loadingTileCounter (tileProvider_ c)).

Definition processLoadRequests (tilesToBeLoading : Z) (c : TileCache) :
    TileCache :=
  let c1 :=
    with_loadRequests (sortByRequestTime (tiles c) (loadRequests_ c)) c in
  loadLoop (Z.to_nat (loadBudget tilesToBeLoading c1)) c1.

(** ** Well-formed caches

    The map and the queue are kept together: the map holds a tile under the
    tile's own key, and the queue holds, once each, tiles of the map that
    are in state Preparing. *)

(** The tile [r] is in the store, under its own key. *)
Definition stored (c : TileCache) (r : TileRef) (tile : Tile.t) : Prop :=
  tiles c !! r = Some tile ∧ tileMap_ c !! Tile.getKey tile = Some r.

Record wf (c : TileCache) : Prop := mk_wf {
  wf_map : ∀ key r, tileMap_ c !! key = Some r →
             ∃ tile, tiles c !! r = Some tile ∧ Tile.getKey tile = key;
  wf_queue : ∀ r, r ∈ loadRequests_ c →
             ∃ tile, stored c r tile ∧ Tile.state tile = PREPARING;
  wf_nodup : NoDup (loadRequests_ c);
}.

(** The tiles the provider accepted among the offers made to it. *)
Definition acceptedOf (offers : list (TileRef * bool)) : list TileRef :=
  (filter (λ o, o.2 = true) offers).*1.

(** The array [cleanable] of [cleanCache], sorted. *)
Definition cleanableSorted (c : TileCache) : list TileRef :=
  sortByRequestTime (tiles c) (filter (cleanableAt (tiles c)) (getValues c)).

(** ** The states a cache can reach *)

(** Modelled from the spec: the completions of [we.texturing.TileProvider],
    which is not among the sources.  A tile in state Loading goes to Loaded
    and is reported through [tileLoadedHandler], which [setTileProvider]
    binds to [tileLoaded_], or it goes to Error. *)
Definition providerLoaded (r : TileRef) (c : TileCache) : TileCache :=
  match tiles c !! r with
  | Some tile =>
      if decide (Tile.state tile = LOADING)
      then tileLoaded_ r
             (with_tiles (alter (Tile.set_state LOADED) r (tiles c)) c)
      else c
  | None => c
  end.

Definition providerFailed (r : TileRef) (c : TileCache) : TileCache :=
  match tiles c !! r with
  | Some tile =>
      if decide (Tile.state tile = LOADING)
      then with_tiles (alter (Tile.set_state ERROR) r (tiles c)) c
      else c
  | None => c
  end.

(** What happens to a cache: the calls of its methods, the assignment of
    its public field, the completions of the provider and the changes of
    its state. *)
Inductive Op :=
  | RetrieveTile (zoom x y requestTime : Z)
  | UpdateRequestTime (key : Tile.Key) (requestTime : Z)
  | CleanCache
  | PurgeNotLoadedTiles (now timeLimit : Z)
  | ProcessLoadRequests (tilesToBeLoading : Z)
  | SetTileProvider (now : Z) (tileprovider : P)
  | SetTargetSize (n : Z)
  | ProviderLoaded (r : TileRef)
  | ProviderFailed (r : TileRef)
  | ProviderStep (p : P).

Definition apply_op (op : Op) (c : TileCache) : TileCache :=
  match op with
  | RetrieveTile zoom x y requestTime => (retrieveTile zoom x y requestTime c).2
  | UpdateRequestTime key requestTime => updateRequestTime key requestTime c
  | CleanCache => cleanCache c
  | PurgeNotLoadedTiles now timeLimit => purgeNotLoadedTiles now timeLimit c
  | ProcessLoadRequests tilesToBeLoading =>
      processLoadRequests tilesToBeLoading c
  | SetTileProvider now tileprovider => setTileProvider now tileprovider c
  | SetTargetSize n => with_targetSize n c
  | ProviderLoaded r => providerLoaded r c
  | ProviderFailed r => providerFailed r c
  | ProviderStep p => with_tileProvider p c
  end.

(** The operations are applied from the left. *)
Definition run (ops : list Op) (c : TileCache) : TileCache :=
  foldl (λ c op, apply_op op c) c ops.

Inductive reachable : TileCache → Prop :=
  | reachable_new now tileprovider : reachable (new now tileprovider)
  | reachable_op op c : reachable c → reachable (apply_op op c).

(** The number of tiles of the map that are in state Loading. *)
Definition loadingCount (c : TileCache) : nat :=
  size (filter (λ kr, loadingAt (tiles c) kr.2) (tileMap_ c)).

(** The operations that keep the provider, and with it the reset time. *)
Definition keepsProvider (op : Op) : Prop :=
  match op with
  | SetTileProvider _ _ => False
  | _ => True
  end.

(** The operations that assign no request time. *)
Definition keepsRequestTime (op : Op) : Prop :=
  match op with
  | RetrieveTile _ _ _ _ | UpdateRequestTime _ _ => False
  | _ => True
  end.

(** Calls of [retrieveTile] with the same zoom, x and y, one for each of
    [requestTimes]: the tiles they return, and the cache they leave. *)
Fixpoint retrieveAll (zoom x y : Z) (requestTimes : list Z) (c : TileCache) :
    list TileRef * TileCache :=
  match requestTimes with
  | [] => ([], c)
  | requestTime :: requestTimes' =>
      let '(r, c1) := retrieveTile zoom x y requestTime c in
      let '(rs, c2) := retrieveAll zoom x y requestTimes' c1 in
      (r :: rs, c2)
  end.

End TileCache.

Arguments TileCache : clear implicits.
Arguments Op : clear implicits.

(** ** A provider and caches to run the operations on *)

(** A provider that answers the offers from a script, and declines when the
    script is at its end; it counts the tiles it has accepted. *)
Definition scripted_loadingTileCounter (p : Z * list bool) : Z := p.1.

Definition scripted_loadTile (p : Z * list bool) (r : TileRef)
    (tile : Tile.t) : bool * (Z * list bool) :=
  match p.2 with
  | accepted :: script => (accepted, (if accepted then p.1 + 1 else p.1, script))
  | [] => (false, p)
  end.

Definition scripted_run (ops : list (Op (Z * list bool)))
    (c : TileCache (Z * list bool)) : TileCache (Z * list bool) :=
  run scripted_loadingTileCounter scripted_loadTile ops c.

(** Two tiles requested, the first one later than the second one; the
    provider has [inFlight] tiles in flight. *)
Definition two_requests (inFlight : Z) (script : list bool) :
    TileCache (Z * list bool) :=
  scripted_run [RetrieveTile 2 1 1 20; RetrieveTile 2 1 2 10]
    (new 0 (inFlight, script)).

(** The same with the queue sorted by a round that offers nothing. *)
Definition two_sorted : TileCache (Z * list bool) :=
  scripted_run [ProcessLoadRequests 0] (two_requests 0 []).

(** A tile requested at time 10 and offered to the provider, which accepts
    it; then, while the tile is loading, a new provider is set at time 20
    and the cache is cleaned. *)
Definition provider_changed : TileCache (Z * list bool) :=
  scripted_run [CleanCache]
    (setTileProvider 20 (0, [])
       (scripted_run [RetrieveTile 2 1 1 10; ProcessLoadRequests 1]
          (new 0 (0, [true])))).

(** Three tiles requested at times 1, 2 and 3, all loaded, and a fourth
    one that is loading, in a cache of target size 2. *)
Definition three_loaded : TileCache (Z * list bool) :=
  scripted_run
    [RetrieveTile 2 0 0 1; RetrieveTile 2 0 1 2; RetrieveTile 2 1 0 3;
     RetrieveTile 2 1 1 0;
     ProcessLoadRequests 4;
     ProviderLoaded 0%nat; ProviderLoaded 1%nat; ProviderLoaded 2%nat;
     SetTargetSize 2]
    (new 0 (0, [true; true; true; true])).

(** ** The selector of the tile provider

    [wedemo.ui.TileProviderSelector], the first part of the source file.
    The drop-down [select_] is a [goog.ui.Select] of the closure library:
    [addItem] puts an item after the ones it has, [getItemCount] counts
    them, [setSelectedItem] selects an item without an ACTION event, and
    the choice of an item by the user selects it and dispatches ACTION,
    the value of the drop-down being then the value of that item.  The
    scene is outside; its calls are kept in a log. *)

Module TileProviderSelector.

Section Selector.

(** The tile providers, the values of the items. *)
Context {TP : Type}.

Record t := mk {
  (** the values of the items of [select_], in their order *)
  items : list TP;
  (** the item selected, by its place; none at first, the caption being
      ['---'] *)
  selected : option nat;
  (** the calls of [scene_.changeTileProvider] *)
  changeCalls : list TP;
}.

(** The constructor. *)
Definition new : t := mk [] None [].

(** [opt_select] is an optional number, used as a condition. *)
Definition truthy (opt_select : option Z) : bool :=
  match opt_select with
  | Some n => negb (n =? 0)
  | None => false
  end.

Definition addTileProvider (tileprovider : TP) (opt_select : option Z)
    (s : t) : t :=
  let item := length (items s) in
  let s1 := mk (items s ++ [tileprovider]) (selected s) (changeCalls s) in
  if truthy opt_select || bool_decide (length (items s1) = 1%nat)
  then mk (items s1) (Some item) (changeCalls s1 ++ [tileprovider])
  else s1.

(** The listener of ACTION set by the constructor, at the choice of the
    item [item] by the user:
    [scene.changeTileProvider(e.target.getValue())]. *)
Definition onAction (item : nat) (s : t) : t :=
  match items s !! item with
  | Some value => mk (items s) (Some item) (changeCalls s ++ [value])
  | None => s
  end.

Inductive Event :=
  | AddTileProvider (tileprovider : TP) (opt_select : option Z)
  | Action (item : nat).

Definition handle (e : Event) (s : t) : t :=
  match e with
  | AddTileProvider tileprovider opt_select =>
      addTileProvider tileprovider opt_select s
  | Action item => onAction item s
  end.

Definition run (events : list Event) (s : t) : t :=
  foldl (λ s e, handle e s) s events.

(** The selection and the scene go together. *)
Definition in_sync (s : t) : Prop :=
  (selected s = None → items s = [] ∧ changeCalls s = []) ∧
  (∀ item, selected s = Some item →
     ∃ tileprovider,
       items s !! item = Some tileprovider ∧
       last (changeCalls s) = Some tileprovider) ∧
  head (changeCalls s) = head (items s).

End Selector.

Arguments t : clear implicits.
Arguments Event : clear implicits.

End TileProviderSelector.

(** ** Facts on the arrays *)

Section Arrays.

Lemma array_pop_snoc {A} (q : list A) (a : A) :
  array_pop (q ++ [a]) = Some (q, a).
Proof.
  induction q as [|b q IH]; simpl; [done|]. by rewrite IH.
Qed.

Lemma array_pop_Some {A} (l q : list A) (a : A) :
  array_pop l = Some (q, a) ↔ l = q ++ [a].
Proof.
  split; [|intros ->; apply array_pop_snoc].
  revert q. induction l as [|b l IH]; intros q; simpl; [done|].
  destruct (array_pop l) as [[q' a']|] eqn:E.
  - intros [= <- <-]. simpl. f_equal. by apply IH.
  - intros [= <- <-]. destruct l as [|c l]; [done|].
    simpl in E. by destruct (array_pop l) as [[??]|].
Qed.

Lemma array_pop_None {A} (l : list A) : array_pop l = None ↔ l = [].
Proof.
  split; [|by intros ->].
  destruct l as [|b l]; [done|]. simpl.
  by destruct (array_pop l) as [[??]|].
Qed.

Lemma elem_of_array_remove obj arr r :
  NoDup arr → r ∈ array_remove obj arr ↔ r ∈ arr ∧ r ≠ obj.
Proof.
  induction 1 as [|a arr Ha Hnd IH]; simpl.
  - split; [by intros ?%elem_of_nil|by intros [?%elem_of_nil _]].
  - case_decide as Hd.
    + subst a. rewrite elem_of_cons. split.
      * intros Hr. split; [by right|]. by intros ->.
      * intros [[?|?] ?]; done.
    + rewrite !elem_of_cons, IH. split.
      * intros [->|[? ?]]; [split; [by left|done]|split; [by right|done]].
      * intros [[->|?] ?]; [by left|by right].
Qed.

Lemma NoDup_array_remove obj arr : NoDup arr → NoDup (array_remove obj arr).
Proof.
  induction 1 as [|a arr Ha Hnd IH]; simpl; [constructor|].
  case_decide; [done|]. constructor; [|done].
  rewrite elem_of_array_remove by done. tauto.
Qed.

End Arrays.

(** ** Facts on the sort *)

Section Sorting.

Variable objs : list Tile.t.

#[global] Instance byRequestTime_total : Total (byRequestTime objs).
Proof. intros r1 r2. unfold byRequestTime. lia. Qed.

#[global] Instance byRequestTime_trans : Transitive (byRequestTime objs).
Proof. intros r1 r2 r3. unfold byRequestTime. lia. Qed.

Lemma sortByRequestTime_perm arr : sortByRequestTime objs arr ≡ₚ arr.
Proof. apply merge_sort_Permutation. Qed.

Lemma sortByRequestTime_sorted arr :
  StronglySorted (byRequestTime objs) (sortByRequestTime objs arr).
Proof. apply StronglySorted_merge_sort; apply _. Qed.

Lemma sortByRequestTime_length arr :
  length (sortByRequestTime objs arr) = length arr.
Proof. by rewrite sortByRequestTime_perm. Qed.

Lemma elem_of_sortByRequestTime arr r :
  r ∈ sortByRequestTime objs arr ↔ r ∈ arr.
Proof. by rewrite sortByRequestTime_perm. Qed.

Lemma NoDup_sortByRequestTime arr :
  NoDup (sortByRequestTime objs arr) ↔ NoDup arr.
Proof. by rewrite sortByRequestTime_perm. Qed.

End Sorting.

(** ** Facts on well-formed caches *)

Section Invariant.

Context {P : Type}.
Variable loadingTileCounter : P → Z.
Variable loadTile : P → TileRef → Tile.t → bool * P.

Implicit Types c : TileCache P.

Lemma wf_map_stored c key r :
  wf c → tileMap_ c !! key = Some r →
  ∃ tile, stored c r tile ∧ Tile.getKey tile = key.
Proof.
  intros Hwf Hk. destruct (wf_map c Hwf key r Hk) as (tile & Ht & Hkey).
  exists tile. unfold stored. by rewrite Hkey.
Qed.

Lemma wf_setTileProvider now p c : wf (setTileProvider now p c).
Proof.
  split; simpl.
  - intros key r. by rewrite lookup_empty.
  - intros r Hr. by apply elem_of_nil in Hr.
  - constructor.
Qed.

Lemma wf_new now (p : P) : wf (new now p).
Proof. apply wf_setTileProvider. Qed.

Lemma wf_with_targetSize n c : wf c → wf (with_targetSize n c).
Proof. intros [H1 H2 H3]. by split. Qed.

(** An assignment to a field of the tile [r] that leaves its key, and its
    state when it is queued, as they are. *)
Lemma wf_alter (f : Tile.t → Tile.t) r c :
  (∀ tile, Tile.getKey (f tile) = Tile.getKey tile) →
  (∀ tile, r ∈ loadRequests_ c → Tile.state (f tile) = Tile.state tile) →
  wf c → wf (with_tiles (alter f r (tiles c)) c).
Proof.
  intros Hkey Hstate [H1 H2 H3]. split; simpl; [| |done].
  - intros key r' Hr'. destruct (H1 key r' Hr') as (tile & Ht & Hk).
    rewrite list_lookup_alter. case_decide as Hd.
    + subst r'. rewrite Ht. simpl. exists (f tile). by rewrite Hkey.
    + by exists tile.
  - intros r' Hr'. destruct (H2 r' Hr') as (tile & [Ht Hm] & Hs).
    unfold stored; simpl. rewrite list_lookup_alter. case_decide as Hd.
    + subst r'. rewrite Ht. simpl. exists (f tile).
      rewrite Hkey, Hstate by done. done.
    + by exists tile.
Qed.

Lemma wf_retrieveTile zoom x y requestTime c :
  wf c → wf (retrieveTile zoom x y requestTime c).2.
Proof.
  intros Hwf. unfold retrieveTile, getTileFromCache.
  destruct (tileMap_ c !! Tile.createKey zoom x y) as [r|] eqn:Hget; simpl.
  - by apply wf_alter.
  - destruct Hwf as [H1 H2 H3]. split; simpl.
    + intros key r. rewrite lookup_insert. case_decide as Hd.
      * intros [= <-]. exists (Tile.new zoom x y requestTime).
        split; [|by subst key].
        by rewrite lookup_app_r, Nat.sub_diag by done.
      * intros Hr. destruct (H1 key r Hr) as (tile & Ht & Hk).
        exists tile. split; [|done].
        rewrite lookup_app_l; [done|]. by eapply lookup_lt_Some.
    + intros r [Hr|Hr%list_elem_of_singleton]%elem_of_app.
      * destruct (H2 r Hr) as (tile & [Ht Hm] & Hs). exists tile.
        split; [|done]. split; simpl.
        -- rewrite lookup_app_l; [done|]. by eapply lookup_lt_Some.
        -- rewrite lookup_insert_ne; [done|]. congruence.
      * subst r. exists (Tile.new zoom x y requestTime).
        split; [|done]. split; simpl.
        -- by rewrite lookup_app_r, Nat.sub_diag by done.
        -- apply lookup_insert_eq.
    + apply NoDup_app. split_and!; [done| |apply NoDup_singleton].
      intros r Hr ->%list_elem_of_singleton.
      destruct (H2 _ Hr) as (tile & [Ht%lookup_lt_Some _] & _).
      by apply Nat.lt_irrefl in Ht.
Qed.

Lemma wf_updateRequestTime key requestTime c :
  wf c → wf (updateRequestTime key requestTime c).
Proof.
  intros Hwf. unfold updateRequestTime.
  destruct (getTileFromCache key c); [|done]. by apply wf_alter.
Qed.

(** Well-formedness looks at the objects, the map and the members of the
    queue only. *)
Lemma wf_ext c c' :
  tiles c' = tiles c → tileMap_ c' = tileMap_ c →
  loadRequests_ c' ≡ₚ loadRequests_ c →
  wf c → wf c'.
Proof.
  intros Ht Hm Hq [H1 H2 H3]. split.
  - rewrite Ht, Hm. exact H1.
  - intros r Hr. rewrite Hq in Hr. destruct (H2 r Hr) as (tile & [? ?] & ?).
    exists tile. unfold stored. by rewrite Ht, Hm.
  - by rewrite Hq.
Qed.

(** What one removal of [cleanCache] does to a tile of the store. *)
Lemma cleanTile_spec r tile c :
  wf c → stored c r tile →
  let c' := cleanTile r c in
  wf c' ∧
  tiles c' = tiles c ∧ targetSize c' = targetSize c ∧
  tileProvider_ c' = tileProvider_ c ∧
  tileProviderResetTime_ c' = tileProviderResetTime_ c ∧
  cachedCalls c' = cachedCalls c ∧ loadCalls c' = loadCalls c ∧
  disposeCalls c' = disposeCalls c ++ [r] ∧
  tileMap_ c' = delete (Tile.getKey tile) (tileMap_ c) ∧
  (∀ key r', tileMap_ c' !! key = Some r' ↔
             tileMap_ c !! key = Some r' ∧ r' ≠ r) ∧
  (∀ r', r' ∈ loadRequests_ c' ↔ r' ∈ loadRequests_ c ∧ r' ≠ r) ∧
  S (size (tileMap_ c')) = size (tileMap_ c).
Proof.
  intros Hwf [Ht Hm]. unfold cleanTile. rewrite Ht. simpl.
  assert (Hmap : ∀ key r',
    delete (Tile.getKey tile) (tileMap_ c) !! key = Some r' ↔
    tileMap_ c !! key = Some r' ∧ r' ≠ r).
  { intros key r'. rewrite lookup_delete_Some. split.
    - intros [Hne Hk]. split; [done|]. intros ->.
      destruct (wf_map c Hwf key r Hk) as (tile' & Ht' & Hk').
      rewrite Ht in Ht'. congruence.
    - intros [Hk Hne]. split; [|done]. intros <-. congruence. }
  assert (Hqueue : ∀ r',
    r' ∈ (if decide (Tile.state tile = PREPARING)
          then array_remove r (loadRequests_ c) else loadRequests_ c) ↔
    r' ∈ loadRequests_ c ∧ r' ≠ r).
  { intros r'. case_decide as Hs.
    - apply elem_of_array_remove, Hwf.
    - split; [|tauto]. intros Hr'. split; [done|]. intros ->.
      destruct (wf_queue c Hwf r Hr') as (tile' & [Ht' _] & Hs').
      rewrite Ht in Ht'. congruence. }
  split_and!; try done.
  - split; simpl.
    + intros key r' [Hk _]%Hmap. by apply Hwf.
    + intros r' [Hr' Hne]%Hqueue.
      destruct (wf_queue c Hwf r' Hr') as (tile' & [Ht' Hm'] & Hs').
      exists tile'. split; [|done]. split; [done|]. simpl.
      by apply Hmap.
    + case_decide; [apply NoDup_array_remove|]; apply Hwf.
  - rewrite map_size_delete, Hm. simpl.
    assert (size (tileMap_ c) ≠ 0)%nat; [|lia].
    intros Hz%map_size_empty_inv. rewrite Hz in Hm. by rewrite lookup_empty in Hm.
Qed.

(** The loop of [cleanCache] on tiles of the store: it removes the first
    [k] of them. *)
Lemma cleanLoop_spec cleanable :
  ∀ c, wf c → NoDup cleanable →
  (∀ r, r ∈ cleanable → ∃ tile, stored c r tile) →
  ∃ k : nat,
    let removed := take k cleanable in
    let c' := cleanLoop cleanable c in
    wf c' ∧
    tiles c' = tiles c ∧ targetSize c' = targetSize c ∧
    tileProvider_ c' = tileProvider_ c ∧
    tileProviderResetTime_ c' = tileProviderResetTime_ c ∧
    cachedCalls c' = cachedCalls c ∧ loadCalls c' = loadCalls c ∧
    disposeCalls c' = disposeCalls c ++ removed ∧
    (∀ key r, tileMap_ c' !! key = Some r ↔
              tileMap_ c !! key = Some r ∧ r ∉ removed) ∧
    (∀ r, r ∈ loadRequests_ c' ↔ r ∈ loadRequests_ c ∧ r ∉ removed) ∧
    (size (tileMap_ c') + k = size (tileMap_ c))%nat ∧
    (k ≤ length cleanable)%nat ∧
    ((0 < k)%nat → targetSize c < Z.of_nat (size (tileMap_ c')) + 1) ∧
    (targetSize c < Z.of_nat (size (tileMap_ c')) → k = length cleanable).
Proof.
  induction cleanable as [|r l IH]; intros c Hwf Hnd Hst.
  - exists 0%nat. simpl. rewrite app_nil_r.
    split_and!; try done; try lia.
    + intros key r. rewrite elem_of_nil. tauto.
    + intros r. rewrite elem_of_nil. tauto.
  - simpl. case_decide as Hsize; cycle 1.
    { exists 0%nat. simpl. rewrite app_nil_r.
      split_and!; try done; try lia.
      - intros key r'. rewrite elem_of_nil. tauto.
      - intros r'. rewrite elem_of_nil. tauto. }
    destruct (Hst r) as (tile & Hr); [by left|].
    destruct (cleanTile_spec r tile c Hwf Hr)
      as (Hwf1 & E1 & E2 & E3 & E4 & E5 & E6 & E7 & E8 & Hmap1 & Hq1 & Hs1).
    apply NoDup_cons in Hnd as [Hrl Hnd].
    destruct (IH (cleanTile r c) Hwf1 Hnd) as (k & IHk).
    { intros r' Hr'. destruct (Hst r') as (tile' & Ht' & Hm'); [by right|].
      exists tile'. split; [by rewrite E1|]. apply Hmap1. split; [done|].
      by intros ->. }
    simpl in IHk.
    destruct IHk
      as (Hwf' & F1 & F2 & F3 & F4 & F5 & F6 & F7 & Hmap & Hq & Hs & Hk & Hmin & Hstop).
    exists (S k). simpl.
    split_and!; try congruence; try lia.
    + by rewrite F7, E7, <-app_assoc.
    + intros key r'. rewrite Hmap, Hmap1, not_elem_of_cons. tauto.
    + intros r'. rewrite Hq, Hq1, not_elem_of_cons. tauto.
Qed.

(** On a well-formed cache the body of the loop of [purgeNotLoadedTiles]
    does what a removal of [cleanCache] does: the tile at the head of the
    queue is in state Preparing. *)
Lemma purgeTile_cleanTile r rest c :
  wf c → loadRequests_ c = r :: rest → purgeTile r rest c = cleanTile r c.
Proof.
  intros Hwf Hq.
  destruct (wf_queue c Hwf r) as (tile & [Ht Hm] & Hs).
  { rewrite Hq. by left. }
  unfold purgeTile, cleanTile. rewrite Ht, Hq.
  rewrite decide_True by done. simpl. by rewrite decide_True.
Qed.

Lemma purgeLoop_spec time queue :
  ∀ c, loadRequests_ c = queue → wf c →
  ∃ k : nat,
    let removed := take k queue in
    let c' := purgeLoop time queue c in
    wf c' ∧
    tiles c' = tiles c ∧ targetSize c' = targetSize c ∧
    tileProvider_ c' = tileProvider_ c ∧
    tileProviderResetTime_ c' = tileProviderResetTime_ c ∧
    cachedCalls c' = cachedCalls c ∧ loadCalls c' = loadCalls c ∧
    disposeCalls c' = disposeCalls c ++ removed ∧
    loadRequests_ c' = drop k queue ∧
    (∀ key r, tileMap_ c' !! key = Some r ↔
              tileMap_ c !! key = Some r ∧ r ∉ removed) ∧
    Forall (λ r, requestTimeAt (tiles c) r < time) removed ∧
    (∀ r, head (drop k queue) = Some r → time ≤ requestTimeAt (tiles c) r).
Proof.
  induction queue as [|r rest IH]; intros c Hq Hwf.
  - exists 0%nat. simpl. rewrite app_nil_r. split_and!; try done.
    intros key r. rewrite elem_of_nil. tauto.
  - destruct (wf_queue c Hwf r) as (tile & [Ht Hm] & Hs).
    { rewrite Hq. by left. }
    simpl. rewrite Ht. case_decide as Htime; cycle 1.
    { exists 0%nat. simpl. rewrite app_nil_r. split_and!; try done.
      - intros key r'. rewrite elem_of_nil. tauto.
      - intros r' [= <-]. unfold requestTimeAt. rewrite Ht. simpl. lia. }
    rewrite (purgeTile_cleanTile r rest c Hwf Hq).
    destruct (cleanTile_spec r tile c Hwf (conj Ht Hm))
      as (Hwf1 & E1 & E2 & E3 & E4 & E5 & E6 & E7 & E8 & Hmap1 & Hq1 & Hs1).
    assert (Hrest : loadRequests_ (cleanTile r c) = rest).
    { rewrite <-(purgeTile_cleanTile r rest c Hwf Hq).
      unfold purgeTile. by rewrite Ht. }
    destruct (IH (cleanTile r c) Hrest Hwf1) as (k & IHk). simpl in IHk.
    destruct IHk
      as (Hwf' & F1 & F2 & F3 & F4 & F5 & F6 & F7 & Hq' & Hmap & Hall & Hhd).
    exists (S k). simpl. split_and!; try congruence.
    + by rewrite F7, E7, <-app_assoc.
    + intros key r'. rewrite Hmap, Hmap1, not_elem_of_cons. tauto.
    + constructor.
      * unfold requestTimeAt. by rewrite Ht.
      * by rewrite E1 in Hall.
    + by rewrite E1 in Hhd.
Qed.

(** One turn of the loop of [processLoadRequests]: the last tile of the
    queue is offered; accepted, it leaves the queue; declined, it is back
    at the end of the queue. *)
Lemma loadStep_spec c rest r :
  wf c → loadRequests_ c = rest ++ [r] →
  ∃ accepted : bool,
    let c' := loadStep loadTile c in
    wf c' ∧
    loadCalls c' = loadCalls c ++ [(r, accepted)] ∧
    loadRequests_ c' = (if accepted then rest else rest ++ [r]) ∧
    tiles c' = (if accepted
                then alter (Tile.set_state LOADING) r (tiles c)
                else tiles c) ∧
    (∃ tile, tiles c !! r = Some tile ∧
       loadTile (tileProvider_ c) r tile = (accepted, tileProvider_ c')) ∧
    tileMap_ c' = tileMap_ c ∧ targetSize c' = targetSize c ∧
    tileProviderResetTime_ c' = tileProviderResetTime_ c ∧
    cachedCalls c' = cachedCalls c ∧ disposeCalls c' = disposeCalls c.
Proof.
  intros Hwf Hq.
  destruct (wf_queue c Hwf r) as (tile & [Ht Hm] & Hs).
  { rewrite Hq. apply elem_of_app. right. by left. }
  unfold loadStep. rewrite Hq, array_pop_snoc, Ht.
  destruct (loadTile (tileProvider_ c) r tile) as [accepted p] eqn:Hload.
  exists accepted. destruct accepted; simpl.
  - split_and!; try done; [|by exists tile].
    pose proof (wf_nodup c Hwf) as Hnd. rewrite Hq in Hnd.
    apply NoDup_app in Hnd as (Hnd & Hnot & _).
    assert (Hwf1 : wf (with_loadRequests rest c)).
    { destruct Hwf as [H1 H2 H3]. split; simpl; [done| |done].
      intros r' Hr'. apply H2. rewrite Hq. apply elem_of_app. by left. }
    eapply (wf_ext (with_tiles (alter (Tile.set_state LOADING) r (tiles c))
                      (with_loadRequests rest c))); [done..|].
    apply (wf_alter (Tile.set_state LOADING) r (with_loadRequests rest c));
      [done| |done].
    simpl. intros tile' Hr.
    exfalso. apply (Hnot r Hr). by left.
  - split_and!; try done; [|by exists tile].
    eapply (wf_ext c); [done..| |done]. simpl. by rewrite Hq.
Qed.

Lemma acceptedOf_cons r (accepted : bool) offers :
  acceptedOf ((r, accepted) :: offers) =
  if accepted then r :: acceptedOf offers else acceptedOf offers.
Proof.
  unfold acceptedOf. rewrite filter_cons. simpl. by destruct accepted.
Qed.

Lemma acceptedOf_length offers : (length (acceptedOf offers) ≤ length offers)%nat.
Proof.
  unfold acceptedOf. rewrite length_fmap. apply length_filter.
Qed.

Lemma elem_of_acceptedOf r offers : r ∈ acceptedOf offers ↔ (r, true) ∈ offers.
Proof.
  unfold acceptedOf. rewrite list_elem_of_fmap. split.
  - intros ([r' b] & -> & [Hb Ho]%list_elem_of_filter). simpl in *. by subst b.
  - intros Ho. exists (r, true). split; [done|]. by apply list_elem_of_filter.
Qed.

Lemma requestTimeAt_set_state s r objs r' :
  requestTimeAt (alter (Tile.set_state s) r objs) r' = requestTimeAt objs r'.
Proof.
  unfold requestTimeAt. rewrite list_lookup_alter. case_decide; [|done].
  subst r'. by destruct (objs !! r).
Qed.

(** [n] turns of the loop of [processLoadRequests], on a queue of at least
    [n] tiles: [n] offers are made, and the tiles accepted are the last
    ones of the queue, taken from its end. *)
Lemma loadLoop_spec n :
  ∀ c, wf c → (n ≤ length (loadRequests_ c))%nat →
  ∃ offers : list (TileRef * bool),
    let c' := loadLoop loadTile n c in
    let q := loadRequests_ c in
    let k := length (acceptedOf offers) in
    wf c' ∧
    loadCalls c' = loadCalls c ++ offers ∧
    length offers = n ∧
    loadRequests_ c' = take (length q - k) q ∧
    acceptedOf offers = reverse (drop (length q - k) q) ∧
    (∀ o, offers !! 0%nat = Some o → last q = Some o.1) ∧
    (∀ i r o, offers !! i = Some (r, false) → offers !! S i = Some o →
              o.1 = r) ∧
    (∀ o, o ∈ offers → o.1 ∈ q) ∧
    (∀ r, tiles c' !! r =
          if decide (r ∈ acceptedOf offers)
          then Tile.set_state LOADING <$> tiles c !! r else tiles c !! r) ∧
    tileMap_ c' = tileMap_ c ∧ targetSize c' = targetSize c ∧
    tileProviderResetTime_ c' = tileProviderResetTime_ c ∧
    cachedCalls c' = cachedCalls c ∧ disposeCalls c' = disposeCalls c.
Proof.
  induction n as [|n IH]; intros c Hwf Hn.
  - exists []. simpl. rewrite app_nil_r, Nat.sub_0_r, take_ge, drop_ge by done.
    split_and!; try done. by intros o ?%elem_of_nil.
  - assert (∃ rest r, loadRequests_ c = rest ++ [r]) as (rest & r & Hq).
    { destruct (array_pop (loadRequests_ c)) as [[rest r]|] eqn:Hpop.
      - exists rest, r. by apply array_pop_Some.
      - apply array_pop_None in Hpop. rewrite Hpop in Hn. simpl in Hn. lia. }
    destruct (loadStep_spec c rest r Hwf Hq) as (accepted & Hstep).
    simpl in Hstep.
    destruct Hstep as (Hwf1 & Hcalls1 & Hq1 & Ht1 & _ & E1 & E2 & E3 & E4 & E5).
    pose proof (wf_nodup c Hwf) as Hnd. rewrite Hq in Hnd.
    apply NoDup_app in Hnd as (Hnd & Hnot & _).
    rewrite Hq, length_app in Hn. simpl in Hn.
    destruct (IH (loadStep loadTile c) Hwf1) as (offers & IHo).
    { rewrite Hq1. destruct accepted; [|rewrite length_app; simpl]; lia. }
    simpl in IHo.
    destruct IHo
      as (Hwf' & Hcalls & Hlen & Hq' & Hacc & Hhd & Hnext & Hoff & Ht' & F1 & F2 & F3 & F4 & F5).
    exists ((r, accepted) :: offers). simpl.
    rewrite acceptedOf_cons, Hq.
    pose proof (acceptedOf_length offers) as Hk.
    split_and!; try congruence.
    + by rewrite Hcalls, Hcalls1, <-app_assoc.
    + rewrite Hq', Hq1. destruct accepted; [|done].
      rewrite length_app. simpl.
      replace (length rest + 1 - S (length (acceptedOf offers)))%nat
        with (length rest - length (acceptedOf offers))%nat by lia.
      rewrite take_app_le by lia. done.
    + rewrite Hq1 in Hacc. destruct accepted; [|exact Hacc].
      rewrite length_app. simpl.
      replace (length rest + 1 - S (length (acceptedOf offers)))%nat
        with (length rest - length (acceptedOf offers))%nat by lia.
      rewrite drop_app_le by lia. rewrite reverse_snoc. by f_equal.
    + intros o [= <-]. apply last_snoc.
    + intros [|i] r' o; simpl.
      * intros [= -> ->] Ho. apply Hhd in Ho. rewrite Hq1, last_snoc in Ho.
        congruence.
      * apply Hnext.
    + intros o [->|Ho%Hoff]%elem_of_cons; simpl.
      * apply elem_of_app. right. by left.
      * rewrite Hq1 in Ho. destruct accepted; [|done].
        apply elem_of_app. by left.
    + intros r'. rewrite Ht', Ht1. destruct accepted; [|done].
      assert (Hr : r ∉ acceptedOf offers).
      { rewrite Hacc, Hq1, elem_of_reverse. intros Hr.
        apply (Hnot r); [|by left]. by eapply subseteq_drop. }
      rewrite list_lookup_alter.
      destruct (decide (r' = r)) as [->|Hne].
      * rewrite (decide_False (P := r ∈ acceptedOf offers)) by done.
        rewrite (decide_True (P := r = r)) by done.
        by rewrite decide_True by by left.
      * rewrite (decide_False (P := r = r')) by congruence.
        destruct (decide (r' ∈ acceptedOf offers)) as [Hin|Hin].
        -- by rewrite decide_True by by right.
        -- rewrite decide_False; [done|]. by intros [?|?]%elem_of_cons.
Qed.

(** The values of the map of a well-formed cache. *)
Lemma elem_of_getValues c r :
  r ∈ getValues c ↔ ∃ key, tileMap_ c !! key = Some r.
Proof.
  unfold getValues. rewrite list_elem_of_fmap. split.
  - intros ([key r'] & -> & Hin%elem_of_map_to_list). by exists key.
  - intros [key Hk]. exists (key, r). split; [done|].
    by apply elem_of_map_to_list.
Qed.

Lemma NoDup_getValues c : wf c → NoDup (getValues c).
Proof.
  intros Hwf. unfold getValues.
  apply NoDup_fmap_2_strong; [|apply NoDup_map_to_list].
  intros [k1 r1] [k2 r2] H1%elem_of_map_to_list H2%elem_of_map_to_list.
  simpl. intros <-.
  destruct (wf_map c Hwf k1 r1 H1) as (tile1 & Ht1 & Hk1).
  destruct (wf_map c Hwf k2 r1 H2) as (tile2 & Ht2 & Hk2).
  f_equal. congruence.
Qed.

Lemma elem_of_cleanableSorted c r :
  wf c →
  r ∈ cleanableSorted c ↔
  ∃ tile, stored c r tile ∧ cleanableState (Tile.state tile).
Proof.
  intros Hwf. unfold cleanableSorted.
  rewrite elem_of_sortByRequestTime, list_elem_of_filter, elem_of_getValues.
  unfold cleanableAt. split.
  - intros [Hcl [key Hk]].
    destruct (wf_map_stored c key r Hwf Hk) as (tile & Hst & _).
    exists tile. split; [done|]. destruct Hst as [Ht _].
    by rewrite Ht in Hcl.
  - intros (tile & [Ht Hm] & Hcl). rewrite Ht. split; [done|by eexists].
Qed.

Lemma NoDup_cleanableSorted c : wf c → NoDup (cleanableSorted c).
Proof.
  intros Hwf. apply NoDup_sortByRequestTime, NoDup_filter.
  by apply NoDup_getValues.
Qed.

Lemma wf_cleanCache c : wf c → wf (cleanCache c).
Proof.
  intros Hwf.
  destruct (cleanLoop_spec (cleanableSorted c) c Hwf) as (k & Hwf' & _).
  - by apply NoDup_cleanableSorted.
  - intros r (tile & Hst & _)%elem_of_cleanableSorted; [|done]. by exists tile.
  - exact Hwf'.
Qed.

Lemma wf_purgeNotLoadedTiles now timeLimit c :
  wf c → wf (purgeNotLoadedTiles now timeLimit c).
Proof.
  intros Hwf.
  by destruct (purgeLoop_spec (now - timeLimit) (loadRequests_ c) c eq_refl Hwf)
    as (k & Hwf' & _).
Qed.

Lemma wf_sorted c :
  wf c →
  wf (with_loadRequests (sortByRequestTime (tiles c) (loadRequests_ c)) c).
Proof.
  apply wf_ext; [done..|]. simpl. apply sortByRequestTime_perm.
Qed.

Lemma loadBudget_le tilesToBeLoading c :
  (Z.to_nat (loadBudget loadingTileCounter tilesToBeLoading c)
   ≤ length (loadRequests_ c))%nat.
Proof. unfold loadBudget. lia. Qed.

Lemma wf_processLoadRequests tilesToBeLoading c :
  wf c →
  wf (processLoadRequests loadingTileCounter loadTile tilesToBeLoading c).
Proof.
  intros Hwf. unfold processLoadRequests.
  edestruct loadLoop_spec as (offers & Hwf' & _);
    [by apply wf_sorted|apply loadBudget_le|exact Hwf'].
Qed.

Lemma wf_tileLoaded_ r c :
  r ∉ loadRequests_ c → wf c → wf (tileLoaded_ r c).
Proof.
  intros Hr Hwf. unfold tileLoaded_. destruct (tiles c !! r); [|done].
  case_decide.
  - apply wf_alter; [done| |done]. by intros tile Hin.
  - by apply (wf_ext c).
Qed.

(** *** The states a cache can reach are well-formed *)

Lemma reachable_run ops c :
  reachable loadingTileCounter loadTile c →
  reachable loadingTileCounter loadTile (run loadingTileCounter loadTile ops c).
Proof.
  revert c. induction ops as [|op ops IH]; intros c Hc; simpl; [done|].
  apply IH. by constructor.
Qed.

Lemma not_queued_LOADING c r tile :
  wf c → tiles c !! r = Some tile → Tile.state tile = LOADING →
  r ∉ loadRequests_ c.
Proof.
  intros Hwf Ht Hs Hr.
  destruct (wf_queue c Hwf r Hr) as (tile' & [Ht' _] & Hs'). congruence.
Qed.

Lemma wf_providerLoaded r c : wf c → wf (providerLoaded r c).
Proof.
  intros Hwf. unfold providerLoaded.
  destruct (tiles c !! r) as [tile|] eqn:Ht; [|done].
  case_decide as Hs; [|done].
  pose proof (not_queued_LOADING c r tile Hwf Ht Hs) as Hr.
  apply wf_tileLoaded_; [done|]. by apply wf_alter.
Qed.

Lemma wf_providerFailed r c : wf c → wf (providerFailed r c).
Proof.
  intros Hwf. unfold providerFailed.
  destruct (tiles c !! r) as [tile|] eqn:Ht; [|done].
  case_decide as Hs; [|done].
  pose proof (not_queued_LOADING c r tile Hwf Ht Hs) as Hr.
  by apply wf_alter.
Qed.

Lemma wf_apply_op op c :
  wf c → wf (apply_op loadingTileCounter loadTile op c).
Proof.
  intros Hwf. destruct op; simpl.
  - by apply wf_retrieveTile.
  - by apply wf_updateRequestTime.
  - by apply wf_cleanCache.
  - by apply wf_purgeNotLoadedTiles.
  - by apply wf_processLoadRequests.
  - apply wf_setTileProvider.
  - by apply wf_with_targetSize.
  - by apply wf_providerLoaded.
  - by apply wf_providerFailed.
  - by apply (wf_ext c).
Qed.

Lemma reachable_wf c : reachable loadingTileCounter loadTile c → wf c.
Proof.
  induction 1 as [now p|op c _ IH]; [apply wf_new|by apply wf_apply_op].
Qed.

End Invariant.

(** ** What the operations leave as it is *)

Section Frame.

Context {P : Type}.
Variable loadingTileCounter : P → Z.
Variable loadTile : P → TileRef → Tile.t → bool * P.

Implicit Types c : TileCache P.

Lemma cleanTile_frame r c :
  tiles (cleanTile r c) = tiles c ∧
  tileProviderResetTime_ (cleanTile r c) = tileProviderResetTime_ c.
Proof. unfold cleanTile. by destruct (tiles c !! r). Qed.

Lemma cleanLoop_frame cleanable c :
  tiles (cleanLoop cleanable c) = tiles c ∧
  tileProviderResetTime_ (cleanLoop cleanable c) = tileProviderResetTime_ c.
Proof.
  revert c. induction cleanable as [|r l IH]; intros c; simpl; [done|].
  case_decide; [|done].
  destruct (IH (cleanTile r c)) as [-> ->]. apply cleanTile_frame.
Qed.

Lemma purgeLoop_frame time queue c :
  tiles (purgeLoop time queue c) = tiles c ∧
  tileProviderResetTime_ (purgeLoop time queue c) = tileProviderResetTime_ c.
Proof.
  revert c. induction queue as [|r rest IH]; intros c; simpl; [done|].
  destruct (tiles c !! r) as [tile|] eqn:Ht; [|done].
  case_decide; [|done].
  destruct (IH (purgeTile r rest c)) as [-> ->].
  unfold purgeTile. by rewrite Ht.
Qed.

Lemma loadStep_frame c :
  (∀ r, requestTimeAt (tiles (loadStep loadTile c)) r =
        requestTimeAt (tiles c) r) ∧
  tileProviderResetTime_ (loadStep loadTile c) = tileProviderResetTime_ c.
Proof.
  unfold loadStep. destruct (array_pop (loadRequests_ c)) as [[rest r]|]; [|done].
  destruct (tiles c !! r) as [tile|]; [|done].
  destruct (loadTile (tileProvider_ c) r tile) as [[] p]; simpl; [|done].
  split; [|done]. intros r'. apply requestTimeAt_set_state.
Qed.

Lemma loadLoop_frame n c :
  (∀ r, requestTimeAt (tiles (loadLoop loadTile n c)) r =
        requestTimeAt (tiles c) r) ∧
  tileProviderResetTime_ (loadLoop loadTile n c) = tileProviderResetTime_ c.
Proof.
  revert c. induction n as [|n IH]; intros c; simpl; [done|].
  destruct (IH (loadStep loadTile c)) as [Ht ->].
  destruct (loadStep_frame c) as [Ht1 ->].
  split; [|done]. intros r. by rewrite Ht, Ht1.
Qed.

Lemma tileLoaded__frame r c :
  (∀ r', requestTimeAt (tiles (tileLoaded_ r c)) r' =
         requestTimeAt (tiles c) r') ∧
  tileProviderResetTime_ (tileLoaded_ r c) = tileProviderResetTime_ c.
Proof.
  unfold tileLoaded_. destruct (tiles c !! r) as [tile|]; [|done].
  case_decide; simpl; [|done].
  split; [|done]. intros r'. apply requestTimeAt_set_state.
Qed.

(** The reset time is the time of the last [setTileProvider]. *)
Lemma apply_op_resetTime op c :
  keepsProvider op →
  tileProviderResetTime_ (apply_op loadingTileCounter loadTile op c) =
  tileProviderResetTime_ c.
Proof.
  destruct op; simpl; try done; intros _.
  - unfold retrieveTile. by destruct (getTileFromCache _ c).
  - unfold updateRequestTime. by destruct (getTileFromCache _ c).
  - apply cleanLoop_frame.
  - apply purgeLoop_frame.
  - unfold processLoadRequests. by rewrite (proj2 (loadLoop_frame _ _)).
  - unfold providerLoaded. destruct (tiles c !! r); [|done].
    case_decide; [|done]. by rewrite (proj2 (tileLoaded__frame _ _)).
  - unfold providerFailed. destruct (tiles c !! r); [|done]. by case_decide.
Qed.

Lemma run_resetTime ops c :
  Forall keepsProvider ops →
  tileProviderResetTime_ (run loadingTileCounter loadTile ops c) =
  tileProviderResetTime_ c.
Proof.
  intros Hops. revert c.
  induction Hops as [|op ops Hop _ IH]; intros c; simpl; [done|].
  by rewrite IH, apply_op_resetTime.
Qed.

(** The request times are assigned by [retrieveTile] and
    [updateRequestTime] only. *)
Lemma apply_op_requestTime op c r :
  keepsRequestTime op →
  requestTimeAt (tiles (apply_op loadingTileCounter loadTile op c)) r =
  requestTimeAt (tiles c) r.
Proof.
  destruct op; simpl; try done; intros _.
  - unfold cleanCache. by rewrite (proj1 (cleanLoop_frame _ _)).
  - unfold purgeNotLoadedTiles. by rewrite (proj1 (purgeLoop_frame _ _ _)).
  - unfold processLoadRequests. by rewrite (proj1 (loadLoop_frame _ _)).
  - unfold providerLoaded. destruct (tiles c !! r0); [|done].
    case_decide; [|done]. rewrite (proj1 (tileLoaded__frame _ _)). simpl.
    apply requestTimeAt_set_state.
  - unfold providerFailed. destruct (tiles c !! r0); [|done].
    case_decide; [|done]. simpl. apply requestTimeAt_set_state.
Qed.

End Frame.

(** ** The request time of a tile *)

Section RequestTime.

Context {P : Type}.
Variable loadingTileCounter : P → Z.
Variable loadTile : P → TileRef → Tile.t → bool * P.

Implicit Types c : TileCache P.

Lemma set_requestTime_id tile :
  Tile.set_requestTime (Tile.requestTime tile) tile = tile.
Proof. by destruct tile. Qed.

(** On a key of the map [retrieveTile] is [updateRequestTime]. *)
Lemma retrieveTile_present zoom x y requestTime c r :
  tileMap_ c !! Tile.createKey zoom x y = Some r →
  retrieveTile zoom x y requestTime c =
  (r, updateRequestTime (Tile.createKey zoom x y) requestTime c).
Proof.
  intros Hk. unfold retrieveTile, updateRequestTime, getTileFromCache.
  by rewrite Hk.
Qed.

Lemma retrieveTile_absent zoom x y requestTime c :
  tileMap_ c !! Tile.createKey zoom x y = None →
  retrieveTile zoom x y requestTime c =
  (length (tiles c),
   mkCache (tiles c ++ [Tile.new zoom x y requestTime])
     (<[Tile.createKey zoom x y := length (tiles c)]> (tileMap_ c))
     (loadRequests_ c ++ [length (tiles c)])
     (targetSize c) (tileProvider_ c) (tileProviderResetTime_ c)
     (cachedCalls c) (loadCalls c) (disposeCalls c)).
Proof.
  intros Hk. unfold retrieveTile, getTileFromCache. by rewrite Hk.
Qed.

Lemma updateRequestTime_present key requestTime c r :
  tileMap_ c !! key = Some r →
  updateRequestTime key requestTime c =
  with_tiles (alter (Tile.set_requestTime requestTime) r (tiles c)) c.
Proof.
  intros Hk. unfold updateRequestTime, getTileFromCache. by rewrite Hk.
Qed.

(** Calls of [retrieveTile] on a key of the map: the tile of the map is
    returned, and has the time of the last call. *)
Lemma retrieveAll_present zoom x y requestTimes :
  ∀ c r tile,
  tileMap_ c !! Tile.createKey zoom x y = Some r →
  tiles c !! r = Some tile →
  let res := retrieveAll zoom x y requestTimes c in
  res.1 = replicate (length requestTimes) r ∧
  tileMap_ res.2 = tileMap_ c ∧
  length (tiles res.2) = length (tiles c) ∧
  tiles res.2 !! r =
    Some (Tile.set_requestTime
            (default (Tile.requestTime tile) (last requestTimes)) tile) ∧
  (∀ r', r' ≠ r → tiles res.2 !! r' = tiles c !! r').
Proof.
  induction requestTimes as [|t ts IH]; intros c r tile Hk Ht; simpl.
  - by rewrite set_requestTime_id.
  - rewrite (retrieveTile_present _ _ _ _ _ r Hk).
    rewrite (updateRequestTime_present _ _ _ r Hk).
    set (c1 := with_tiles _ c).
    destruct (IH c1 r (Tile.set_requestTime t tile)) as (E1 & E2 & E3 & E4 & E5).
    { done. }
    { subst c1. simpl. by rewrite list_lookup_alter_eq, Ht. }
    destruct (retrieveAll zoom x y ts c1) as [rs c2]. simpl in *.
    split_and!.
    + by rewrite E1.
    + by rewrite E2.
    + by rewrite E3, length_alter.
    + rewrite E4, last_cons. by destruct (last ts).
    + intros r' Hr'. rewrite E5 by done. by apply list_lookup_alter_ne.
Qed.

(** The last of times in ascending order is the latest of them. *)
Lemma last_sorted_max t ts :
  StronglySorted Z.le (t :: ts) → default t (last ts) = foldr Z.max t ts.
Proof.
  revert t. induction ts as [|t' ts IH]; intros t Hs; [done|].
  apply StronglySorted_inv in Hs as [Hs Hall].
  specialize (IH t' Hs). rewrite last_cons. simpl.
  assert (Hle : t ≤ t') by (by apply Forall_cons in Hall as [? _]).
  assert (Hmax : foldr Z.max t ts ≤ foldr Z.max t' ts).
  { clear -Hle. induction ts as [|a ts IH]; simpl; lia. }
  assert (Hge : t' ≤ foldr Z.max t' ts).
  { clear. induction ts as [|a ts IH]; simpl; lia. }
  assert (Hle' : foldr Z.max t' ts ≤ Z.max t' (foldr Z.max t ts)).
  { clear. induction ts as [|a ts IH]; simpl; lia. }
  destruct (last ts) as [z|]; simpl in *; lia.
Qed.

(** C1, as the code has it: for every sequence of [retrieveTile] calls with
    the same zoom, x and y on a cache that does not hold this key, one Tile
    object is created, every call returns that same Tile, and after the
    sequence the [requestTime] of the Tile is the one passed to the last
    call, which is the maximum of the times passed when these are in
    ascending order. *)
Theorem retrieveTile_same_key zoom x y t ts c :
  tileMap_ c !! Tile.createKey zoom x y = None →
  let r := length (tiles c) in
  let res := retrieveAll zoom x y (t :: ts) c in
  res.1 = replicate (S (length ts)) r ∧
  length (tiles res.2) = S (length (tiles c)) ∧
  tileMap_ res.2 !! Tile.createKey zoom x y = Some r ∧
  tiles res.2 !! r =
    Some (Tile.mk zoom x y (default t (last ts)) PREPARING) ∧
  (∀ r', r' ≠ r → tiles res.2 !! r' = tiles c !! r') ∧
  (StronglySorted Z.le (t :: ts) → default t (last ts) = foldr Z.max t ts).
Proof.
  intros Hk. simpl. rewrite (retrieveTile_absent _ _ _ _ _ Hk).
  set (c1 := mkCache _ _ _ _ _ _ _ _ _).
  destruct (retrieveAll_present zoom x y ts c1 (length (tiles c))
              (Tile.new zoom x y t)) as (E1 & E2 & E3 & E4 & E5).
  { subst c1. simpl. apply lookup_insert_eq. }
  { subst c1. simpl. by rewrite lookup_app_r, Nat.sub_diag by done. }
  destruct (retrieveAll zoom x y ts c1) as [rs c2]. simpl in *.
  split_and!.
  - by rewrite E1.
  - rewrite E3, length_app. simpl. lia.
  - rewrite E2. apply lookup_insert_eq.
  - exact E4.
  - intros r' Hr'. rewrite E5 by done.
    destruct (decide (r' < length (tiles c))%nat) as [Hlt|Hge].
    + by apply lookup_app_l.
    + rewrite !lookup_ge_None_2; [done|lia|rewrite length_app; simpl; lia].
  - apply last_sorted_max.
Qed.

(** C7, as the code has it: [updateRequestTime] on a key of the map, and
    [retrieveTile] on such a key, assign the time passed to the
    [requestTime] of the tile, be it later or earlier than the time the
    tile has; so the [requestTime] is not lowered exactly when the time
    passed is not earlier.  No other operation changes the [requestTime]
    of a tile. *)
Theorem requestTime_assigned key requestTime c r tile :
  tileMap_ c !! key = Some r →
  tiles c !! r = Some tile →
  tiles (updateRequestTime key requestTime c) !! r =
    Some (Tile.set_requestTime requestTime tile) ∧
  (∀ zoom x y, Tile.createKey zoom x y = key →
     retrieveTile zoom x y requestTime c =
     (r, updateRequestTime key requestTime c)) ∧
  (Tile.requestTime tile ≤
     requestTimeAt (tiles (updateRequestTime key requestTime c)) r ↔
   Tile.requestTime tile ≤ requestTime) ∧
  (∀ op r', keepsRequestTime op →
     requestTimeAt (tiles (apply_op loadingTileCounter loadTile op c)) r' =
     requestTimeAt (tiles c) r').
Proof.
  intros Hk Ht. rewrite (updateRequestTime_present _ _ _ r Hk). simpl.
  assert (Hnew : alter (Tile.set_requestTime requestTime) r (tiles c) !! r =
                 Some (Tile.set_requestTime requestTime tile)).
  { by rewrite list_lookup_alter_eq, Ht. }
  split_and!.
  - exact Hnew.
  - intros zoom x y <-. rewrite (retrieveTile_present _ _ _ _ _ r Hk).
    by rewrite (updateRequestTime_present _ _ _ r Hk).
  - unfold requestTimeAt. by rewrite Hnew.
  - intros op r'. apply apply_op_requestTime.
Qed.

(** C9: [updateRequestTime] with a key that is not in the map leaves the
    cache as it is: the map and its size, the queue, and every tile with
    its request time and state. *)
Theorem updateRequestTime_absent key requestTime c :
  tileMap_ c !! key = None → updateRequestTime key requestTime c = c.
Proof.
  intros Hk. unfold updateRequestTime, getTileFromCache. by rewrite Hk.
Qed.

(** C2: when the provider reports a tile as loaded, [tileLoaded_] compares
    the request time of the tile with the time recorded by the last
    [setTileProvider]: a tile requested before it goes to state Error and
    [tileCachedHandler] is not called; otherwise [tileCachedHandler] is
    called with the tile. *)
Theorem tileLoaded__stale now tileprovider c0 ops r tile :
  Forall keepsProvider ops →
  let c := run loadingTileCounter loadTile ops
             (setTileProvider now tileprovider c0) in
  tiles c !! r = Some tile →
  let c' := tileLoaded_ r c in
  (Tile.requestTime tile < now →
     tiles c' !! r = Some (Tile.set_state ERROR tile) ∧
     cachedCalls c' = cachedCalls c) ∧
  (now ≤ Tile.requestTime tile →
     cachedCalls c' = cachedCalls c ++ [r] ∧ tiles c' = tiles c).
Proof.
  intros Hops c Ht. simpl.
  assert (Hreset : tileProviderResetTime_ c = now).
  { subst c. by rewrite run_resetTime. }
  unfold tileLoaded_. rewrite Ht, Hreset. split; intros Hcmp.
  - rewrite decide_True by done. simpl.
    by rewrite list_lookup_alter_eq, Ht.
  - rewrite decide_False by lia. done.
Qed.

End RequestTime.

(** ** Eviction, purge and the queue *)

Section Eviction.

Context {P : Type}.
Variable loadingTileCounter : P → Z.
Variable loadTile : P → TileRef → Tile.t → bool * P.

Implicit Types c : TileCache P.

Lemma not_cleanable_LOADING s : ¬ cleanableState s ↔ s = LOADING.
Proof. unfold cleanableState. destruct s; intuition congruence. Qed.

(** A map of tiles in state Loading has at most [loadingCount] tiles. *)
Lemma size_le_loadingCount c (m : gmap Tile.Key TileRef) :
  (∀ key r, m !! key = Some r →
     tileMap_ c !! key = Some r ∧ loadingAt (tiles c) r) →
  (size m ≤ loadingCount c)%nat.
Proof.
  intros Hm. apply map_subseteq_size, map_subseteq_spec.
  intros key r Hk. apply map_lookup_filter_Some. by apply Hm.
Qed.

(** C3: on a well-formed cache, as every cache reached is, [cleanCache]
    removes no tile in state Loading.  It removes tiles in state Loaded,
    Preparing or Error, in ascending order of [requestTime] and the least
    recently requested ones first, a tile in state Preparing also from the
    queue, until the map has at most [targetSize] tiles or no such tile is
    left.  So the map has at most [targetSize] tiles afterwards unless the
    tiles in state Loading alone are more.  [removed] are the tiles
    removed, in the order of their removal. *)
Theorem cleanCache_evicts c :
  wf c →
  let c' := cleanCache c in
  ∃ removed : list TileRef,
    disposeCalls c' = disposeCalls c ++ removed ∧
    tiles c' = tiles c ∧
    NoDup removed ∧
    (∀ r, r ∈ removed →
       ∃ tile, stored c r tile ∧ cleanableState (Tile.state tile)) ∧
    (∀ r tile, stored c r tile → Tile.state tile = LOADING →
       stored c' r tile) ∧
    (∀ key r, tileMap_ c' !! key = Some r ↔
              tileMap_ c !! key = Some r ∧ r ∉ removed) ∧
    (∀ r, r ∈ loadRequests_ c' ↔ r ∈ loadRequests_ c ∧ r ∉ removed) ∧
    StronglySorted (byRequestTime (tiles c)) removed ∧
    (∀ r r' tile', r ∈ removed → stored c' r' tile' →
       cleanableState (Tile.state tile') → byRequestTime (tiles c) r r') ∧
    (size (tileMap_ c') + length removed = size (tileMap_ c))%nat ∧
    (removed ≠ [] → targetSize c ≤ Z.of_nat (size (tileMap_ c'))) ∧
    (Z.of_nat (size (tileMap_ c')) ≤ targetSize c ∨
     ∀ r tile, stored c' r tile → Tile.state tile = LOADING) ∧
    (Z.of_nat (loadingCount c) ≤ targetSize c →
     Z.of_nat (size (tileMap_ c')) ≤ targetSize c).
Proof.
  intros Hwf. cbv zeta.
  change (cleanCache c) with (cleanLoop (cleanableSorted c) c).
  pose proof (NoDup_cleanableSorted c Hwf) as Hnd.
  pose proof (sortByRequestTime_sorted (tiles c)
                (filter (cleanableAt (tiles c)) (getValues c))) as Hsorted.
  fold (cleanableSorted c) in Hsorted.
  destruct (cleanLoop_spec (cleanableSorted c) c Hwf Hnd) as (k & Hk).
  { intros r (tile & Hst & _)%elem_of_cleanableSorted; [|done]. by exists tile. }
  cbv zeta in Hk. set (c' := cleanLoop (cleanableSorted c) c) in *.
  destruct Hk
    as (Hwf' & Ht & Hts & _ & _ & _ & _ & Hdisp & Hmap & Hq & Hsize & Hkl & Hmin & Hstop).
  set (removed := take k (cleanableSorted c)) in *.
  assert (Hsplit : cleanableSorted c = removed ++ drop k (cleanableSorted c)).
  { subst removed. by rewrite take_drop. }
  assert (Hrem : ∀ r, r ∈ removed →
            ∃ tile, stored c r tile ∧ cleanableState (Tile.state tile)).
  { intros r Hr. apply elem_of_cleanableSorted; [done|].
    rewrite Hsplit. apply elem_of_app. by left. }
  assert (Hstored : ∀ r tile, stored c' r tile →
            stored c r tile ∧ r ∉ removed).
  { intros r tile [Hr Hm]. apply Hmap in Hm as [Hm Hn].
    split; [|done]. split; [|done]. by rewrite <-Ht. }
  assert (Hall : Z.of_nat (size (tileMap_ c')) ≤ targetSize c ∨
            ∀ r tile, stored c' r tile → Tile.state tile = LOADING).
  { destruct (decide (targetSize c < Z.of_nat (size (tileMap_ c')))) as [Hlt|Hge];
      [right|left; lia].
    intros r tile Hst. apply not_cleanable_LOADING. intros Hcl.
    destruct (Hstored r tile Hst) as [Hst0 Hn]. apply Hn.
    subst removed. rewrite (Hstop Hlt), take_ge by done.
    apply elem_of_cleanableSorted; [done|]. by exists tile. }
  exists removed. split_and!; try done.
  - eapply sublist_NoDup; [exact Hnd|]. apply sublist_take.
  - intros r tile [Hr Hm] Hs. split; [by rewrite Ht|].
    apply Hmap. split; [done|]. intros (tile' & [Hr' _] & Hcl)%Hrem.
    rewrite Hr in Hr'. injection Hr' as <-.
    by apply not_cleanable_LOADING in Hs.
  - rewrite Hsplit in Hsorted. by apply StronglySorted_app_1_l in Hsorted.
  - intros r r' tile' Hr Hst Hcl.
    destruct (Hstored r' tile' Hst) as [Hst0 Hn].
    assert (Hr' : r' ∈ cleanableSorted c).
    { apply elem_of_cleanableSorted; [done|]. by exists tile'. }
    rewrite Hsplit in Hr', Hsorted.
    apply elem_of_app in Hr' as [?|Hr']; [done|].
    by eapply StronglySorted_app_1_elem_of.
  - subst removed. rewrite length_take. lia.
  - intros Hne. apply Z.lt_succ_r, Hmin.
    destruct k as [|k']; [|lia]. by subst removed.
  - intros Hcount. destruct Hall as [?|Hall]; [done|].
    etrans; [|exact Hcount]. apply inj_le, size_le_loadingCount.
    intros key r Hk.
    destruct (wf_map_stored c' key r Hwf' Hk) as (tile & Hst & Hkey).
    pose proof (Hall r tile Hst) as Hs.
    destruct (Hstored r tile Hst) as [[Hr Hm] _].
    split; [by rewrite <-Hkey|]. unfold loadingAt. by rewrite Hr.
Qed.

(** C6: on a well-formed cache, as every cache reached is, every tile that
    [purgeNotLoadedTiles] removes from the queue has a [requestTime] before
    [now - timeLimit], and is afterwards neither in the queue nor in the
    map; the tile is disposed.  [removed] are the tiles removed, in their
    order; they are the head of the queue. *)
Theorem purgeNotLoadedTiles_removes now timeLimit c :
  wf c →
  let c' := purgeNotLoadedTiles now timeLimit c in
  ∃ removed : list TileRef,
    loadRequests_ c = removed ++ loadRequests_ c' ∧
    disposeCalls c' = disposeCalls c ++ removed ∧
    tiles c' = tiles c ∧
    (∀ r, r ∈ removed →
       ∃ tile, tiles c !! r = Some tile ∧
               Tile.requestTime tile < now - timeLimit) ∧
    (∀ r, r ∈ removed →
       (∀ key, tileMap_ c' !! key ≠ Some r) ∧ r ∉ loadRequests_ c') ∧
    (∀ key r, tileMap_ c' !! key = Some r ↔
              tileMap_ c !! key = Some r ∧ r ∉ removed).
Proof.
  intros Hwf. cbv zeta.
  change (purgeNotLoadedTiles now timeLimit c)
    with (purgeLoop (now - timeLimit) (loadRequests_ c) c).
  destruct (purgeLoop_spec (now - timeLimit) (loadRequests_ c) c eq_refl Hwf)
    as (k & Hk).
  cbv zeta in Hk.
  set (c' := purgeLoop (now - timeLimit) (loadRequests_ c) c) in *.
  destruct Hk as (Hwf' & Ht & _ & _ & _ & _ & _ & Hdisp & Hq & Hmap & Hall & _).
  exists (take k (loadRequests_ c)). split_and!; try done.
  - by rewrite Hq, take_drop.
  - intros r Hr. rewrite Forall_forall in Hall. specialize (Hall r Hr).
    destruct (wf_queue c Hwf r) as (tile & [Hr' _] & _).
    { by eapply subseteq_take. }
    exists tile. split; [done|]. unfold requestTimeAt in Hall.
    by rewrite Hr' in Hall.
  - intros r Hr. split.
    + intros key Hkey. apply Hmap in Hkey as [_ Hn]. done.
    + rewrite Hq. intros Hr'. pose proof (wf_nodup c Hwf) as Hnd.
      rewrite <-(take_drop k (loadRequests_ c)) in Hnd.
      apply NoDup_app in Hnd as (_ & Hn & _). by apply (Hn r).
Qed.

(** C8: in every state a cache reaches, by the calls of its methods
    ([retrieveTile], [updateRequestTime], [cleanCache],
    [purgeNotLoadedTiles], [processLoadRequests], [setTileProvider]), the
    assignment of [targetSize], and the completions and changes of state of
    the provider, every tile of the queue is in the map under its own key,
    is in state Preparing, and is in the queue once. *)
Theorem queue_invariant c :
  reachable loadingTileCounter loadTile c →
  NoDup (loadRequests_ c) ∧
  ∀ r, r ∈ loadRequests_ c →
    ∃ tile, tiles c !! r = Some tile ∧
            tileMap_ c !! Tile.getKey tile = Some r ∧
            Tile.state tile = PREPARING.
Proof.
  intros Hwf%reachable_wf. split; [apply Hwf|].
  intros r Hr. destruct (wf_queue c Hwf r Hr) as (tile & [Ht Hm] & Hs).
  by exists tile.
Qed.

End Eviction.

(** ** One round of [processLoadRequests] *)

Section Dispatch.

Context {P : Type}.
Variable loadingTileCounter : P → Z.
Variable loadTile : P → TileRef → Tile.t → bool * P.

Implicit Types c : TileCache P.

Lemma acceptedOf_accepted offers :
  Forall (λ o, o.2 = true) offers → acceptedOf offers = offers.*1.
Proof.
  induction 1 as [|[r b] offers Hb _ IH]; [done|]. simpl in Hb. subst b.
  rewrite acceptedOf_cons. simpl. by f_equal.
Qed.

Lemma acceptedOf_declined offers :
  Forall (λ o, o.2 = false) offers → acceptedOf offers = [].
Proof.
  induction 1 as [|[r b] offers Hb _ IH]; [done|]. simpl in Hb. subst b.
  by rewrite acceptedOf_cons.
Qed.

(** Offers that are all declined, each one the tile of the one before, are
    offers of one tile. *)
Lemma declined_offers_same (offers : list (TileRef * bool)) :
  ∀ r,
  (∀ o, offers !! 0%nat = Some o → o.1 = r) →
  (∀ i r' o, offers !! i = Some (r', false) → offers !! S i = Some o →
             o.1 = r') →
  Forall (λ o, o.2 = false) offers →
  offers = replicate (length offers) (r, false).
Proof.
  induction offers as [|[r0 b] offers IH]; intros r Hhd Hnext Hall; [done|].
  apply Forall_cons in Hall as [Hb Hall]. simpl in Hb. subst b.
  assert (r0 = r) as -> by (by apply (Hhd (r0, false))).
  simpl. f_equal. apply IH; [| |done].
  - intros o Ho. by apply (Hnext 0%nat r o).
  - intros i r' o Hi HSi. by apply (Hnext (S i) r' o).
Qed.

(** The last tile of a queue in ascending order has the latest request. *)
Lemma last_sorted_latest objs (q : list TileRef) r :
  StronglySorted (byRequestTime objs) q → last q = Some r →
  ∀ r', r' ∈ q → requestTimeAt objs r' ≤ requestTimeAt objs r.
Proof.
  intros Hs [q' ->]%last_Some r' [Hr'|Hr']%elem_of_app.
  - by apply (StronglySorted_app_1_elem_of _ _ _ _ _ Hs); [|left].
  - apply list_elem_of_singleton in Hr'. by subst r'.
Qed.

(** A round sorts the queue and runs the loop [n] times, [n] being the
    lesser of the length of the queue and of what the provider has free. *)
Lemma processLoadRequests_spec tilesToBeLoading c :
  wf c →
  let q := sortByRequestTime (tiles c) (loadRequests_ c) in
  let n := Z.to_nat (Z.min (Z.of_nat (length (loadRequests_ c)))
                       (tilesToBeLoading
                        - loadingTileCounter (tileProvider_ c))) in
  let c' := processLoadRequests loadingTileCounter loadTile tilesToBeLoading c in
  ∃ offers : list (TileRef * bool),
    let k := length (acceptedOf offers) in
    wf c' ∧
    loadCalls c' = loadCalls c ++ offers ∧
    length offers = n ∧
    loadRequests_ c' = take (length q - k) q ∧
    acceptedOf offers = reverse (drop (length q - k) q) ∧
    (∀ o, offers !! 0%nat = Some o → last q = Some o.1) ∧
    (∀ i r o, offers !! i = Some (r, false) → offers !! S i = Some o →
              o.1 = r) ∧
    (∀ o, o ∈ offers → o.1 ∈ q) ∧
    (∀ r, tiles c' !! r =
          if decide (r ∈ acceptedOf offers)
          then Tile.set_state LOADING <$> tiles c !! r else tiles c !! r) ∧
    tileMap_ c' = tileMap_ c ∧ targetSize c' = targetSize c ∧
    tileProviderResetTime_ c' = tileProviderResetTime_ c ∧
    cachedCalls c' = cachedCalls c ∧ disposeCalls c' = disposeCalls c.
Proof.
  intros Hwf. cbv zeta.
  set (c1 := with_loadRequests
               (sortByRequestTime (tiles c) (loadRequests_ c)) c).
  destruct (loadLoop_spec loadTile
              (Z.to_nat (loadBudget loadingTileCounter tilesToBeLoading c1)) c1)
    as (offers & Hspec); [by apply wf_sorted|apply loadBudget_le|].
  cbv zeta in Hspec. exists offers.
  assert (Hn : loadBudget loadingTileCounter tilesToBeLoading c1 =
               Z.min (Z.of_nat (length (loadRequests_ c)))
                 (tilesToBeLoading - loadingTileCounter (tileProvider_ c))).
  { unfold loadBudget. simpl. by rewrite sortByRequestTime_length. }
  rewrite <-Hn. exact Hspec.
Qed.

(** C4, as the code has it: on a well-formed cache one call of
    [processLoadRequests] offers tiles to the provider as many times as the
    lesser of the length of the queue and of [tilesToBeLoading] minus the
    counter of the provider, and not at all when this is negative.  A tile
    of the queue that the provider has not accepted in the round, whether
    it has declined it or was not offered it, is in the queue when the
    round ends; a tile declined and then accepted in the same round is
    not. *)
Theorem processLoadRequests_bounded tilesToBeLoading c :
  wf c →
  let budget := tilesToBeLoading - loadingTileCounter (tileProvider_ c) in
  let c' := processLoadRequests loadingTileCounter loadTile tilesToBeLoading c in
  ∃ offers : list (TileRef * bool),
    loadCalls c' = loadCalls c ++ offers ∧
    Z.of_nat (length offers) =
      Z.max 0 (Z.min (Z.of_nat (length (loadRequests_ c))) budget) ∧
    Z.of_nat (length offers) ≤ Z.max 0 budget ∧
    (length offers ≤ length (loadRequests_ c))%nat ∧
    (∀ o, o ∈ offers → o.1 ∈ loadRequests_ c) ∧
    (∀ r, r ∈ loadRequests_ c → (r, true) ∉ offers → r ∈ loadRequests_ c') ∧
    (∀ r, r ∈ loadRequests_ c' → r ∈ loadRequests_ c ∧ (r, true) ∉ offers).
Proof.
  intros Hwf. cbv zeta.
  destruct (processLoadRequests_spec tilesToBeLoading c Hwf) as (offers & Hspec).
  cbv zeta in Hspec.
  destruct Hspec as (_ & Hcalls & Hlen & Hq & Hacc & _ & _ & Hoff & _).
  set (q := sortByRequestTime (tiles c) (loadRequests_ c)) in *.
  set (k := length (acceptedOf offers)) in *.
  assert (Hsplit : q = take (length q - k) q ++ drop (length q - k) q)
    by (by rewrite take_drop).
  assert (Hnd : NoDup q) by (by apply NoDup_sortByRequestTime, wf_nodup).
  exists offers. split_and!; try done; try lia.
  - intros o Ho. by apply (elem_of_sortByRequestTime (tiles c)), Hoff.
  - intros r Hr Hn. rewrite Hq.
    apply (elem_of_sortByRequestTime (tiles c)) in Hr. fold q in Hr.
    rewrite Hsplit in Hr. apply elem_of_app in Hr as [Hr|Hr]; [done|].
    exfalso. apply Hn, elem_of_acceptedOf. rewrite Hacc.
    by apply elem_of_reverse.
  - intros r Hr. rewrite Hq in Hr. split.
    + apply (elem_of_sortByRequestTime (tiles c)). by eapply subseteq_take.
    + rewrite <-elem_of_acceptedOf, Hacc, elem_of_reverse.
      rewrite Hsplit in Hnd. apply NoDup_app in Hnd as (_ & Hn & _).
      by apply Hn.
Qed.

(** C5, as the code has it: on a well-formed cache [processLoadRequests]
    first sorts the whole queue in ascending order of [requestTime], also
    when [n], the lesser of the length of the queue and of
    [tilesToBeLoading] minus the counter of the provider, is not positive,
    and this is then all it does.  Otherwise it makes [n] offers to the
    provider.  The tiles accepted are the last ones of the sorted queue,
    the latest request first, each one once, and the others stay in the
    queue; when the provider accepts every offer they are the [n] tiles of
    the latest requests. *)
Theorem processLoadRequests_order tilesToBeLoading c :
  wf c →
  let q := sortByRequestTime (tiles c) (loadRequests_ c) in
  let n := Z.min (Z.of_nat (length (loadRequests_ c)))
             (tilesToBeLoading - loadingTileCounter (tileProvider_ c)) in
  let c' := processLoadRequests loadingTileCounter loadTile tilesToBeLoading c in
  q ≡ₚ loadRequests_ c ∧
  StronglySorted (byRequestTime (tiles c)) q ∧
  (n ≤ 0 → c' = with_loadRequests q c) ∧
  ∃ offers : list (TileRef * bool),
    let k := length (acceptedOf offers) in
    loadCalls c' = loadCalls c ++ offers ∧
    length offers = Z.to_nat n ∧
    acceptedOf offers = reverse (drop (length q - k) q) ∧
    loadRequests_ c' = take (length q - k) q ∧
    NoDup (acceptedOf offers) ∧
    (∀ r r', r ∈ acceptedOf offers → r' ∈ loadRequests_ c' →
       requestTimeAt (tiles c) r' ≤ requestTimeAt (tiles c) r) ∧
    (Forall (λ o, o.2 = true) offers →
       offers.*1 = reverse (drop (length q - Z.to_nat n) q) ∧
       loadRequests_ c' = take (length q - Z.to_nat n) q).
Proof.
  intros Hwf. cbv zeta.
  destruct (processLoadRequests_spec tilesToBeLoading c Hwf) as (offers & Hspec).
  cbv zeta in Hspec.
  destruct Hspec as (_ & Hcalls & Hlen & Hq & Hacc & _).
  pose proof (sortByRequestTime_sorted (tiles c) (loadRequests_ c)) as Hsorted.
  set (q := sortByRequestTime (tiles c) (loadRequests_ c)) in *.
  set (k := length (acceptedOf offers)) in *.
  assert (Hsplit : q = take (length q - k) q ++ drop (length q - k) q)
    by (by rewrite take_drop).
  assert (Hnd : NoDup q) by (by apply NoDup_sortByRequestTime, wf_nodup).
  split_and!.
  - apply sortByRequestTime_perm.
  - done.
  - intros Hn. unfold processLoadRequests, loadBudget. simpl.
    rewrite sortByRequestTime_length.
    by replace (Z.to_nat _) with 0%nat by lia.
  - exists offers. split_and!; try done.
    + rewrite Hacc, reverse_Permutation.
      rewrite Hsplit in Hnd. by apply NoDup_app in Hnd as (_ & _ & ?).
    + intros r r'. rewrite Hacc, Hq, elem_of_reverse. intros Hr Hr'.
      rewrite Hsplit in Hsorted.
      by apply (StronglySorted_app_1_elem_of _ _ _ _ _ Hsorted).
    + intros Hall. pose proof (acceptedOf_accepted offers Hall) as Heq.
      assert (Hk : k = Z.to_nat (Z.min (Z.of_nat (length (loadRequests_ c)))
                  (tilesToBeLoading - loadingTileCounter (tileProvider_ c)))).
      { subst k. by rewrite Heq, length_fmap. }
      rewrite <-Hk, <-Heq. done.
Qed.

(** C10: in one round, on a well-formed cache, a tile the provider declines
    is pushed back at the end of the queue, and is the tile of the next
    offer of the round.  With a provider that declines every offer a round
    of [n] offers makes them all for one tile, the one of the latest
    request, in place of [n] tiles, and leaves the sorted queue as it
    is. *)
Theorem declined_tile_reoffered tilesToBeLoading c :
  wf c →
  let q := sortByRequestTime (tiles c) (loadRequests_ c) in
  let n := Z.to_nat (Z.min (Z.of_nat (length (loadRequests_ c)))
                       (tilesToBeLoading
                        - loadingTileCounter (tileProvider_ c))) in
  let c' := processLoadRequests loadingTileCounter loadTile tilesToBeLoading c in
  (∀ c1 rest r tile,
     loadRequests_ c1 = rest ++ [r] → tiles c1 !! r = Some tile →
     (loadTile (tileProvider_ c1) r tile).1 = false →
     loadRequests_ (loadStep loadTile c1) = rest ++ [r] ∧
     loadCalls (loadStep loadTile c1) = loadCalls c1 ++ [(r, false)]) ∧
  ∃ offers : list (TileRef * bool),
    loadCalls c' = loadCalls c ++ offers ∧
    length offers = n ∧
    (∀ i r o, offers !! i = Some (r, false) → offers !! S i = Some o →
              o.1 = r) ∧
    (∀ r, last q = Some r →
       (∀ r', r' ∈ q →
          requestTimeAt (tiles c) r' ≤ requestTimeAt (tiles c) r) ∧
       (∀ o, offers !! 0%nat = Some o → o.1 = r) ∧
       (Forall (λ o, o.2 = false) offers →
          offers = replicate n (r, false) ∧ loadRequests_ c' = q)).
Proof.
  intros Hwf. cbv zeta. split.
  { intros c1 rest r tile Hq Ht Hdecl. unfold loadStep.
    rewrite Hq, array_pop_snoc, Ht.
    destruct (loadTile (tileProvider_ c1) r tile) as [accepted p].
    simpl in Hdecl. by subst accepted. }
  destruct (processLoadRequests_spec tilesToBeLoading c Hwf) as (offers & Hspec).
  cbv zeta in Hspec.
  destruct Hspec as (_ & Hcalls & Hlen & Hq & Hacc & Hhd & Hnext & _).
  pose proof (sortByRequestTime_sorted (tiles c) (loadRequests_ c)) as Hsorted.
  set (q := sortByRequestTime (tiles c) (loadRequests_ c)) in *.
  exists offers. split_and!; try done.
  intros r Hlast. split_and!.
  - by apply last_sorted_latest.
  - intros o Ho. apply Hhd in Ho. congruence.
  - intros Hall. split.
    + rewrite <-Hlen. apply declined_offers_same; [|done..].
      intros o Ho. apply Hhd in Ho. congruence.
    + rewrite Hq, (acceptedOf_declined offers Hall). simpl.
      rewrite Nat.sub_0_r. by apply take_ge.
Qed.

End Dispatch.

(** ** Runs of the operations *)

Lemma scripted_run_reachable ops now p :
  reachable scripted_loadingTileCounter scripted_loadTile
    (scripted_run ops (new now p)).
Proof. apply reachable_run, reachable_new. Qed.

Lemma scripted_run_wf ops now p : wf (scripted_run ops (new now p)).
Proof.
  eapply reachable_wf, scripted_run_reachable.
Qed.

Lemma wf_two_requests inFlight script : wf (two_requests inFlight script).
Proof. apply scripted_run_wf. Qed.

Lemma wf_two_sorted : wf two_sorted.
Proof.
  apply (scripted_run_wf
           [RetrieveTile 2 1 1 20; RetrieveTile 2 1 2 10; ProcessLoadRequests 0]).
Qed.

Lemma wf_three_loaded : wf three_loaded.
Proof. apply scripted_run_wf. Qed.

(** The scenarios of the description of the cache. *)
Example scenario_load_and_cache :
  let c1 := scripted_run [RetrieveTile 2 1 1 10] (new 0 (0, [true])) in
  let c2 := scripted_run [ProcessLoadRequests 1] c1 in
  let c3 := scripted_run [ProviderLoaded 0%nat] c2 in
  (Tile.state <$> tiles c1 !! 0%nat = Some PREPARING ∧
   loadRequests_ c1 = [0%nat]) ∧
  Tile.state <$> tiles c2 !! 0%nat = Some LOADING ∧
  (Tile.state <$> tiles c3 !! 0%nat = Some LOADED ∧ cachedCalls c3 = [0%nat]).
Proof. vm_compute. by repeat split. Qed.

Example scenario_evict_least_recent :
  let c :=
    scripted_run
      [RetrieveTile 2 0 0 1; RetrieveTile 2 0 1 2; RetrieveTile 2 1 0 3;
       ProcessLoadRequests 3;
       ProviderLoaded 0%nat; ProviderLoaded 1%nat; ProviderLoaded 2%nat;
       SetTargetSize 2; CleanCache]
      (new 0 (0, [true; true; true])) in
  disposeCalls c = [0%nat] ∧ size (tileMap_ c) = 2%nat ∧
  tileMap_ c !! Tile.createKey 2 0 0 = None.
Proof. vm_compute. by repeat split. Qed.

(** C1: the time passed to the last call is kept, not the maximum. *)
Lemma retrieveTile_not_maximum :
  (retrieveAll 2 1 1 [10; 5] (new 0 (0, @nil bool))).1 = [0%nat; 0%nat] ∧
  requestTimeAt (tiles (retrieveAll 2 1 1 [10; 5] (new 0 (0, @nil bool))).2)
    0%nat ≠ Z.max 10 5.
Proof. vm_compute. split; [reflexivity|discriminate]. Qed.

Lemma retrieveTile_same_key_witness :
  tileMap_ (new 0 (0, @nil bool)) !! Tile.createKey 2 1 1 = None ∧
  (retrieveAll 2 1 1 [10; 5; 7] (new 0 (0, @nil bool))).1 =
    replicate 3 (length (tiles (new 0 (0, @nil bool)))) ∧
  tiles (retrieveAll 2 1 1 [10; 5; 7] (new 0 (0, @nil bool))).2 !! 0%nat =
    Some (Tile.mk 2 1 1 7 PREPARING).
Proof.
  assert (Hk : tileMap_ (new 0 (0, @nil bool)) !! Tile.createKey 2 1 1 = None)
    by reflexivity.
  split; [exact Hk|].
  destruct (retrieveTile_same_key 2 1 1 10 [5; 7] (new 0 (0, @nil bool)) Hk)
    as (H1 & _ & _ & H4 & _).
  split; [exact H1|exact H4].
Defined.

(** C7: a time passed that is earlier lowers the [requestTime]. *)
Lemma updateRequestTime_lowers :
  ¬ (requestTimeAt (tiles (two_requests 0 [])) 0%nat ≤
     requestTimeAt
       (tiles (updateRequestTime (Tile.createKey 2 1 1) 5 (two_requests 0 [])))
       0%nat) ∧
  ¬ (requestTimeAt (tiles (two_requests 0 [])) 0%nat ≤
     requestTimeAt (tiles (retrieveTile 2 1 1 5 (two_requests 0 [])).2) 0%nat).
Proof. vm_compute. split; intros H; by apply H. Qed.

Lemma requestTime_assigned_witness :
  tileMap_ (two_requests 0 []) !! Tile.createKey 2 1 1 = Some 0%nat ∧
  tiles (two_requests 0 []) !! 0%nat = Some (Tile.mk 2 1 1 20 PREPARING) ∧
  tiles (updateRequestTime (Tile.createKey 2 1 1) 5 (two_requests 0 []))
    !! 0%nat = Some (Tile.mk 2 1 1 5 PREPARING).
Proof.
  assert (Hk : tileMap_ (two_requests 0 []) !! Tile.createKey 2 1 1
               = Some 0%nat) by reflexivity.
  assert (Ht : tiles (two_requests 0 []) !! 0%nat
               = Some (Tile.mk 2 1 1 20 PREPARING)) by reflexivity.
  split; [exact Hk|]. split; [exact Ht|].
  exact (proj1 (requestTime_assigned scripted_loadingTileCounter
                  scripted_loadTile _ 5 _ _ _ Hk Ht)).
Defined.

Lemma updateRequestTime_absent_witness :
  tileMap_ (two_requests 0 []) !! Tile.createKey 2 2 2 = None ∧
  updateRequestTime (Tile.createKey 2 2 2) 30 (two_requests 0 []) =
    two_requests 0 [].
Proof.
  assert (Hk : tileMap_ (two_requests 0 []) !! Tile.createKey 2 2 2 = None)
    by reflexivity.
  split; [exact Hk|]. exact (updateRequestTime_absent _ 30 _ Hk).
Defined.

Lemma tileLoaded__stale_witness :
  Forall (keepsProvider (P := Z * list bool)) [CleanCache] ∧
  tiles provider_changed !! 0%nat = Some (Tile.mk 2 1 1 10 LOADING) ∧
  tiles (tileLoaded_ 0%nat provider_changed) !! 0%nat =
    Some (Tile.mk 2 1 1 10 ERROR) ∧
  cachedCalls (tileLoaded_ 0%nat provider_changed) =
    cachedCalls provider_changed.
Proof.
  assert (Hops : Forall (keepsProvider (P := Z * list bool)) [CleanCache])
    by (by repeat constructor).
  assert (Ht : tiles provider_changed !! 0%nat
               = Some (Tile.mk 2 1 1 10 LOADING)) by reflexivity.
  split; [exact Hops|]. split; [exact Ht|].
  refine (proj1 (tileLoaded__stale scripted_loadingTileCounter scripted_loadTile
                   20 (0, [])
                   (scripted_run [RetrieveTile 2 1 1 10; ProcessLoadRequests 1]
                      (new 0 (0, [true])))
                   [CleanCache] 0%nat _ Hops Ht) _).
  reflexivity.
Defined.

Lemma cleanCache_evicts_witness :
  wf three_loaded ∧
  Z.of_nat (size (tileMap_ (cleanCache three_loaded)))
  ≤ targetSize three_loaded.
Proof.
  split; [exact wf_three_loaded|].
  destruct (cleanCache_evicts three_loaded wf_three_loaded) as (removed & H).
  apply H. vm_compute. discriminate.
Defined.

Example clean_three_loaded :
  Tile.state <$> tiles three_loaded = [LOADED; LOADED; LOADED; LOADING] ∧
  Tile.requestTime <$> tiles three_loaded = [1; 2; 3; 0] ∧
  size (tileMap_ three_loaded) = 4%nat ∧ targetSize three_loaded = 2 ∧
  disposeCalls (cleanCache three_loaded) = [0%nat; 1%nat] ∧
  tileMap_ (cleanCache three_loaded) !! Tile.createKey 2 1 1 = Some 3%nat.
Proof. vm_compute. by repeat split. Qed.

Lemma purgeNotLoadedTiles_removes_witness :
  wf two_sorted ∧
  ∃ removed : list TileRef,
    loadRequests_ two_sorted =
      removed ++ loadRequests_ (purgeNotLoadedTiles 25 10 two_sorted) ∧
    ∀ r, r ∈ removed →
      (∀ key, tileMap_ (purgeNotLoadedTiles 25 10 two_sorted) !! key ≠ Some r) ∧
      r ∉ loadRequests_ (purgeNotLoadedTiles 25 10 two_sorted).
Proof.
  split; [exact wf_two_sorted|].
  destruct (purgeNotLoadedTiles_removes 25 10 two_sorted wf_two_sorted)
    as (removed & H1 & _ & _ & _ & H5 & _).
  exists removed. split; [exact H1|exact H5].
Defined.

Example purge_two_sorted :
  loadRequests_ two_sorted = [1%nat; 0%nat] ∧
  loadRequests_ (purgeNotLoadedTiles 25 10 two_sorted) = [0%nat] ∧
  disposeCalls (purgeNotLoadedTiles 25 10 two_sorted) = [1%nat] ∧
  tileMap_ (purgeNotLoadedTiles 25 10 two_sorted) !! Tile.createKey 2 1 2 = None.
Proof. vm_compute. by repeat split. Qed.

Lemma queue_invariant_witness :
  reachable scripted_loadingTileCounter scripted_loadTile (two_requests 0 []) ∧
  NoDup (loadRequests_ (two_requests 0 [])).
Proof.
  assert (Hr : reachable scripted_loadingTileCounter scripted_loadTile
                 (two_requests 0 []))
    by apply scripted_run_reachable.
  split; [exact Hr|].
  exact (proj1 (queue_invariant scripted_loadingTileCounter scripted_loadTile
                  _ Hr)).
Defined.

(** C4: a tile declined at the first offer of a round and accepted at the
    second one is not in the queue when the round ends. *)
Lemma declined_then_accepted :
  loadCalls (processLoadRequests scripted_loadingTileCounter scripted_loadTile
               2 (two_requests 0 [false; true]))
    = [(0%nat, false); (0%nat, true)] ∧
  0%nat ∉ loadRequests_
            (processLoadRequests scripted_loadingTileCounter scripted_loadTile
               2 (two_requests 0 [false; true])).
Proof.
  split; [reflexivity|].
  change (0%nat ∉ [1%nat]).
  intros [H|H%elem_of_nil]%elem_of_cons; [discriminate H|exact H].
Qed.

Lemma processLoadRequests_bounded_witness :
  wf (two_requests 0 [false; true]) ∧
  ∃ offers : list (TileRef * bool),
    loadCalls (processLoadRequests scripted_loadingTileCounter
                 scripted_loadTile 2 (two_requests 0 [false; true]))
      = loadCalls (two_requests 0 [false; true]) ++ offers ∧
    Z.of_nat (length offers) ≤ Z.max 0 (2 - 0).
Proof.
  split; [apply wf_two_requests|].
  destruct (processLoadRequests_bounded scripted_loadingTileCounter
              scripted_loadTile 2 (two_requests 0 [false; true])
              (wf_two_requests 0 [false; true]))
    as (offers & H1 & _ & H3 & _).
  exists offers. split; [exact H1|exact H3].
Defined.

(** C5: a round that may offer nothing still sorts the queue. *)
Lemma processLoadRequests_sorts_without_offer :
  Z.min (Z.of_nat (length (loadRequests_ (two_requests 3 []))))
    (2 - scripted_loadingTileCounter (tileProvider_ (two_requests 3 []))) ≤ 0 ∧
  loadRequests_ (two_requests 3 []) = [0%nat; 1%nat] ∧
  loadRequests_ (processLoadRequests scripted_loadingTileCounter
                   scripted_loadTile 2 (two_requests 3 []))
    = [1%nat; 0%nat].
Proof. vm_compute. split; [discriminate|by split]. Qed.

Lemma processLoadRequests_order_witness :
  wf (two_requests 0 [true]) ∧
  ∃ offers : list (TileRef * bool),
    loadCalls (processLoadRequests scripted_loadingTileCounter
                 scripted_loadTile 1 (two_requests 0 [true]))
      = loadCalls (two_requests 0 [true]) ++ offers ∧
    length offers = 1%nat.
Proof.
  split; [apply wf_two_requests|].
  destruct (processLoadRequests_order scripted_loadingTileCounter
              scripted_loadTile 1 (two_requests 0 [true])
              (wf_two_requests 0 [true]))
    as (_ & _ & _ & offers & H1 & H2 & _).
  exists offers. split; [exact H1|exact H2].
Defined.

Example dispatch_latest_first :
  loadCalls (processLoadRequests scripted_loadingTileCounter
               scripted_loadTile 2 (two_requests 0 [true; true]))
    = [(0%nat, true); (1%nat, true)] ∧
  loadCalls (processLoadRequests scripted_loadingTileCounter
               scripted_loadTile 1 (two_requests 0 [true; true]))
    = [(0%nat, true)].
Proof. vm_compute. by split. Qed.

Lemma declined_tile_reoffered_witness :
  wf (two_requests 0 []) ∧
  ∃ offers : list (TileRef * bool),
    loadCalls (processLoadRequests scripted_loadingTileCounter
                 scripted_loadTile 2 (two_requests 0 []))
      = loadCalls (two_requests 0 []) ++ offers ∧
    length offers = 2%nat.
Proof.
  split; [apply wf_two_requests|].
  destruct (declined_tile_reoffered scripted_loadingTileCounter
              scripted_loadTile 2 (two_requests 0 [])
              (wf_two_requests 0 []))
    as (_ & offers & H1 & H2 & _).
  exists offers. split; [exact H1|exact H2].
Defined.

Example decline_all_offers_one_tile :
  loadCalls (processLoadRequests scripted_loadingTileCounter
               scripted_loadTile 2 (two_requests 0 []))
    = [(0%nat, false); (0%nat, false)] ∧
  loadRequests_ (processLoadRequests scripted_loadingTileCounter
                   scripted_loadTile 2 (two_requests 0 []))
    = [1%nat; 0%nat].
Proof. vm_compute. by split. Qed.

(** ** The store over the operations *)

Section Store.

Context {P : Type}.
Variable loadingTileCounter : P → Z.
Variable loadTile : P → TileRef → Tile.t → bool * P.

Implicit Types c : TileCache P.

Lemma loadStep_length c :
  length (tiles (loadStep loadTile c)) = length (tiles c).
Proof.
  unfold loadStep. destruct (array_pop (loadRequests_ c)) as [[rest r]|]; [|done].
  destruct (tiles c !! r) as [tile|]; [|done].
  destruct (loadTile (tileProvider_ c) r tile) as [[] p]; simpl; [|done].
  apply length_alter.
Qed.

Lemma loadLoop_length n c :
  length (tiles (loadLoop loadTile n c)) = length (tiles c).
Proof.
  revert c. induction n as [|n IH]; intros c; simpl; [done|].
  by rewrite IH, loadStep_length.
Qed.

Lemma tileLoaded__store r c :
  length (tiles (tileLoaded_ r c)) = length (tiles c) ∧
  tileMap_ (tileLoaded_ r c) = tileMap_ c ∧
  loadRequests_ (tileLoaded_ r c) = loadRequests_ c ∧
  disposeCalls (tileLoaded_ r c) = disposeCalls c.
Proof.
  unfold tileLoaded_. destruct (tiles c !! r) as [tile|]; [|done].
  case_decide; simpl; [|done]. by rewrite length_alter.
Qed.

(** The objects are created and never taken away. *)
Lemma apply_op_length op c :
  (length (tiles c) ≤
   length (tiles (apply_op loadingTileCounter loadTile op c)))%nat.
Proof.
  destruct op; simpl; try done.
  - unfold retrieveTile. destruct (getTileFromCache _ c); simpl.
    + by rewrite length_alter.
    + rewrite length_app. lia.
  - unfold updateRequestTime. destruct (getTileFromCache _ c); simpl; [|done].
    by rewrite length_alter.
  - unfold cleanCache. by rewrite (proj1 (cleanLoop_frame _ _)).
  - unfold purgeNotLoadedTiles. by rewrite (proj1 (purgeLoop_frame _ _ _)).
  - unfold processLoadRequests. by rewrite loadLoop_length.
  - unfold providerLoaded. destruct (tiles c !! r); [|done].
    case_decide; [|done]. rewrite (proj1 (tileLoaded__store _ _)). simpl.
    by rewrite length_alter.
  - unfold providerFailed. destruct (tiles c !! r); [|done].
    case_decide; [|done]. simpl. by rewrite length_alter.
Qed.

(** What an operation disposes, and what it leaves in the map: the tiles
    disposed were in the map and are no more, and a tile that comes into the
    map is a new object. *)
Lemma apply_op_store op c :
  wf c →
  let c' := apply_op loadingTileCounter loadTile op c in
  ∃ removed : list TileRef,
    disposeCalls c' = disposeCalls c ++ removed ∧
    NoDup removed ∧
    (∀ r, r ∈ removed →
       (∃ key, tileMap_ c !! key = Some r) ∧
       ∀ key, tileMap_ c' !! key ≠ Some r) ∧
    (∀ key r, tileMap_ c' !! key = Some r →
       tileMap_ c !! key = Some r ∨ r = length (tiles c)).
Proof.
  intros Hwf. cbv zeta.
  assert (Hnone : ∀ c' : TileCache P,
    disposeCalls c' = disposeCalls c →
    (∀ key r, tileMap_ c' !! key = Some r →
       tileMap_ c !! key = Some r ∨ r = length (tiles c)) →
    ∃ removed : list TileRef,
      disposeCalls c' = disposeCalls c ++ removed ∧
      NoDup removed ∧
      (∀ r, r ∈ removed →
         (∃ key, tileMap_ c !! key = Some r) ∧
         ∀ key, tileMap_ c' !! key ≠ Some r) ∧
      (∀ key r, tileMap_ c' !! key = Some r →
         tileMap_ c !! key = Some r ∨ r = length (tiles c))).
  { intros c' Hd Hm. exists []. rewrite app_nil_r.
    split_and!; [done|constructor| |done]. by intros r ?%elem_of_nil. }
  destruct op; cbn [apply_op].
  - apply Hnone.
    + unfold retrieveTile. by destruct (getTileFromCache _ c).
    + intros key r. unfold retrieveTile, getTileFromCache.
      destruct (tileMap_ c !! Tile.createKey zoom x y) eqn:Hk; simpl; [by left|].
      rewrite lookup_insert. case_decide; [|by left].
      intros [= <-]. by right.
  - apply Hnone.
    + unfold updateRequestTime. by destruct (getTileFromCache _ c).
    + intros key' r. unfold updateRequestTime.
      destruct (getTileFromCache _ c); by left.
  - pose proof (NoDup_cleanableSorted c Hwf) as Hnd.
    destruct (cleanLoop_spec (cleanableSorted c) c Hwf Hnd) as (k & Hk).
    { intros r (tile & Hst & _)%elem_of_cleanableSorted; [|done].
      by exists tile. }
    cbv zeta in Hk.
    change (cleanLoop (cleanableSorted c) c) with (cleanCache c) in Hk.
    destruct Hk as (_ & _ & _ & _ & _ & _ & _ & Hd & Hmap & _).
    exists (take k (cleanableSorted c)). split_and!; [done| | |].
    + eapply sublist_NoDup; [exact Hnd|]. apply sublist_take.
    + intros r Hr. split.
      * apply subseteq_take in Hr.
        apply elem_of_cleanableSorted in Hr as (tile & [_ Hm] & _); [|done].
        by eexists.
      * intros key Hkey. by apply Hmap in Hkey as [_ Hn].
    + intros key r Hkey. left. by apply Hmap in Hkey as [? _].
  - destruct (purgeLoop_spec (now - timeLimit) (loadRequests_ c) c eq_refl Hwf)
      as (k & Hk).
    cbv zeta in Hk.
    change (purgeLoop (now - timeLimit) (loadRequests_ c) c)
      with (purgeNotLoadedTiles now timeLimit c) in Hk.
    destruct Hk as (_ & _ & _ & _ & _ & _ & _ & Hd & _ & Hmap & _).
    exists (take k (loadRequests_ c)). split_and!; [done| | |].
    + eapply sublist_NoDup; [apply (wf_nodup c Hwf)|]. apply sublist_take.
    + intros r Hr. split.
      * apply subseteq_take in Hr.
        destruct (wf_queue c Hwf r Hr) as (tile & [_ Hm] & _). by eexists.
      * intros key Hkey. by apply Hmap in Hkey as [_ Hn].
    + intros key r Hkey. left. by apply Hmap in Hkey as [? _].
  - destruct (processLoadRequests_spec loadingTileCounter loadTile
                tilesToBeLoading c Hwf) as (offers & Hspec).
    cbv zeta in Hspec.
    destruct Hspec as (_ & _ & _ & _ & _ & _ & _ & _ & _ & Hm & _ & _ & _ & Hd).
    apply Hnone; [done|]. intros key r. rewrite Hm. by left.
  - apply Hnone; [done|]. simpl. intros key r. by rewrite lookup_empty.
  - apply Hnone; [done|]. intros key r. by left.
  - unfold providerLoaded. destruct (tiles c !! r); [|by apply Hnone; [|left]].
    case_decide; [|by apply Hnone; [|left]].
    destruct (tileLoaded__store r
                (with_tiles (alter (Tile.set_state LOADED) r (tiles c)) c))
      as (_ & Hm & _ & Hd).
    apply Hnone; [done|]. intros key r'. rewrite Hm. by left.
  - unfold providerFailed. destruct (tiles c !! r); [|by apply Hnone; [|left]].
    case_decide; by apply Hnone; [|left].
  - apply Hnone; [done|]. intros key r. by left.
Qed.

End Store.

(** ** Further properties of the store *)

Section StoreProperties.

Context {P : Type}.
Variable loadingTileCounter : P → Z.
Variable loadTile : P → TileRef → Tile.t → bool * P.

Implicit Types c : TileCache P.

Lemma run_invariant (I : TileCache P → Prop) :
  (∀ op c, I c → I (apply_op loadingTileCounter loadTile op c)) →
  ∀ ops c, I c → I (run loadingTileCounter loadTile ops c).
Proof.
  intros Hstep ops. induction ops as [|op ops IH]; intros c Hc; simpl; [done|].
  by apply IH, Hstep.
Qed.

Lemma length_getValues c : length (getValues c) = size (tileMap_ c).
Proof. unfold getValues. by rewrite length_fmap, length_map_to_list. Qed.

(** X1: in every state a cache reaches, the map holds every tile under the
    key of that tile, so that no tile is held under two keys. *)
Theorem map_invariant c :
  reachable loadingTileCounter loadTile c →
  (∀ key r, tileMap_ c !! key = Some r →
     ∃ tile, tiles c !! r = Some tile ∧ Tile.getKey tile = key) ∧
  (∀ key1 key2 r, tileMap_ c !! key1 = Some r → tileMap_ c !! key2 = Some r →
     key1 = key2).
Proof.
  intros Hwf%reachable_wf. split; [apply Hwf|].
  intros key1 key2 r H1 H2.
  destruct (wf_map c Hwf key1 r H1) as (tile1 & Ht1 & <-).
  destruct (wf_map c Hwf key2 r H2) as (tile2 & Ht2 & <-).
  congruence.
Qed.

(** X2: in every state a cache reaches, the queue has at most as many tiles
    as the map, and the map at most as many as Tile objects were created. *)
Theorem store_sizes c :
  reachable loadingTileCounter loadTile c →
  (length (loadRequests_ c) ≤ size (tileMap_ c))%nat ∧
  (size (tileMap_ c) ≤ length (tiles c))%nat.
Proof.
  intros Hwf%reachable_wf. rewrite <-length_getValues. split.
  - apply submseteq_length, NoDup_submseteq; [apply Hwf|].
    intros r Hr. destruct (wf_queue c Hwf r Hr) as (tile & [_ Hm] & _).
    apply elem_of_getValues. by eexists.
  - rewrite <-(length_seq (length (tiles c)) 0).
    apply submseteq_length, NoDup_submseteq; [by apply NoDup_getValues|].
    intros r [key Hk]%elem_of_getValues.
    destruct (wf_map c Hwf key r Hk) as (tile & Ht%lookup_lt_Some & _).
    apply elem_of_seq. lia.
Qed.

(** X3: after [retrieveTile] the map gives the tile returned for the key of
    the call, and what it gave before for every other key.  A call for a
    key that is not in the map creates a tile in state Preparing with the
    time passed, puts it at the end of the queue and makes the map one
    larger; a call for a key of the map changes neither the map nor the
    queue. *)
Theorem retrieveTile_lookup zoom x y requestTime c :
  let key := Tile.createKey zoom x y in
  let r := (retrieveTile zoom x y requestTime c).1 in
  let c' := (retrieveTile zoom x y requestTime c).2 in
  getTileFromCache key c' = Some r ∧
  (∀ key', key' ≠ key → getTileFromCache key' c' = getTileFromCache key' c) ∧
  (getTileFromCache key c = None →
     r = length (tiles c) ∧
     tiles c' !! r = Some (Tile.mk zoom x y requestTime PREPARING) ∧
     loadRequests_ c' = loadRequests_ c ++ [r] ∧
     size (tileMap_ c') = S (size (tileMap_ c))) ∧
  (∀ r0, getTileFromCache key c = Some r0 →
     r = r0 ∧ tileMap_ c' = tileMap_ c ∧
     loadRequests_ c' = loadRequests_ c ∧
     length (tiles c') = length (tiles c)).
Proof.
  cbv zeta. unfold retrieveTile, getTileFromCache.
  destruct (tileMap_ c !! Tile.createKey zoom x y) as [r0|] eqn:Hk; simpl.
  - split_and!; [done|done|done|].
    intros r [= <-]. by rewrite length_alter.
  - split_and!; [apply lookup_insert_eq| | |done].
    + intros key' Hne. by apply lookup_insert_ne.
    + intros _. split_and!; [done| |done|by apply map_size_insert_None].
      by rewrite lookup_app_r, Nat.sub_diag by done.
Qed.

(** X4: in every state a cache reaches, no tile was disposed twice, and a
    tile disposed is neither in the map nor in the queue. *)
Theorem disposed_once c :
  reachable loadingTileCounter loadTile c →
  NoDup (disposeCalls c) ∧
  ∀ r, r ∈ disposeCalls c →
    (∀ key, tileMap_ c !! key ≠ Some r) ∧ r ∉ loadRequests_ c.
Proof.
  intros Hreach.
  assert (Hinv : NoDup (disposeCalls c) ∧
            ∀ r, r ∈ disposeCalls c →
              (r < length (tiles c))%nat ∧
              ∀ key, tileMap_ c !! key ≠ Some r).
  { induction Hreach as [now p|op c Hreach [IHnd IH]].
    - split; [constructor|]. by intros r ?%elem_of_nil.
    - pose proof (reachable_wf _ _ c Hreach) as Hwf.
      destruct (apply_op_store loadingTileCounter loadTile op c Hwf)
        as (removed & Hd & Hnd & Hrem & Hmap).
      pose proof (apply_op_length loadingTileCounter loadTile op c) as Hlen.
      rewrite Hd. split.
      + apply NoDup_app. split_and!; [done| |done].
        intros r Hr Hr'. destruct (Hrem r Hr') as [[key Hkey] _].
        by destruct (IH r Hr) as [_ Hn]; apply (Hn key).
      + intros r [Hr|Hr]%elem_of_app.
        * destruct (IH r Hr) as [Hlt Hn]. split; [lia|].
          intros key [Hkey| ->]%Hmap; [by apply (Hn key)|lia].
        * destruct (Hrem r Hr) as [[key Hkey] Hn]. split; [|done].
          destruct (wf_map c Hwf key r Hkey) as (tile & Ht%lookup_lt_Some & _).
          lia. }
  destruct Hinv as [Hnd Hall]. split; [done|].
  intros r Hr. destruct (Hall r Hr) as [_ Hn]. split; [done|].
  intros Hq. pose proof (reachable_wf _ _ c Hreach) as Hwf.
  destruct (wf_queue c Hwf r Hq) as (tile & [_ Hm] & _). by apply (Hn _ Hm).
Qed.

(** X5: after [setTileProvider], whatever the cache did before and does
    afterwards, the map and the queue hold only Tile objects created after
    that call: a tile of the provider before is never given by the cache
    again. *)
Theorem setTileProvider_forgets now tileprovider c0 ops :
  let c := run loadingTileCounter loadTile ops
             (setTileProvider now tileprovider c0) in
  (∀ key r, getTileFromCache key c = Some r → (length (tiles c0) ≤ r)%nat) ∧
  (∀ r, r ∈ loadRequests_ c → (length (tiles c0) ≤ r)%nat).
Proof.
  cbv zeta.
  assert (Hinv :
    let c := run loadingTileCounter loadTile ops
               (setTileProvider now tileprovider c0) in
    wf c ∧ (length (tiles c0) ≤ length (tiles c))%nat ∧
    ∀ key r, tileMap_ c !! key = Some r → (length (tiles c0) ≤ r)%nat).
  { apply (run_invariant (λ c,
      wf c ∧ (length (tiles c0) ≤ length (tiles c))%nat ∧
      ∀ key r, tileMap_ c !! key = Some r → (length (tiles c0) ≤ r)%nat)).
    - intros op c (Hwf & Hlen & Hmap).
      pose proof (apply_op_length loadingTileCounter loadTile op c) as Hlen'.
      destruct (apply_op_store loadingTileCounter loadTile op c Hwf)
        as (_ & _ & _ & _ & Hmap').
      split_and!; [by apply wf_apply_op|lia|].
      intros key r [Hk| ->]%Hmap'; [by eapply Hmap|done].
    - split_and!; [apply wf_setTileProvider|done|].
      simpl. intros key r. by rewrite lookup_empty. }
  cbv zeta in Hinv. destruct Hinv as (Hwf & _ & Hmap).
  split; [exact Hmap|].
  intros r Hr. destruct (wf_queue _ Hwf r Hr) as (tile & [_ Hm] & _).
  by eapply Hmap.
Qed.

End StoreProperties.

(** ** Further properties of the queue *)

Section QueueProperties.

Context {P : Type}.
Variable loadingTileCounter : P → Z.
Variable loadTile : P → TileRef → Tile.t → bool * P.

Implicit Types c : TileCache P.

(** The order of the queue looks at the request times only. *)
Lemma StronglySorted_byRequestTime_ext objs objs' (l : list TileRef) :
  (∀ r, requestTimeAt objs' r = requestTimeAt objs r) →
  StronglySorted (byRequestTime objs) l →
  StronglySorted (byRequestTime objs') l.
Proof.
  intros Heq. induction 1 as [|a l Hs IH Hall]; constructor; [done|].
  eapply Forall_impl; [exact Hall|]. intros r. unfold byRequestTime.
  by rewrite !Heq.
Qed.

(** The tile of the latest request, when there is one such tile, is the
    last one of the sorted queue. *)
Lemma last_sorted_strict objs (q : list TileRef) r x :
  StronglySorted (byRequestTime objs) q → last q = Some x → r ∈ q →
  (∀ r', r' ∈ q → r' ≠ r → requestTimeAt objs r' < requestTimeAt objs r) →
  x = r.
Proof.
  intros Hs Hlast Hr Hlatest.
  pose proof (last_sorted_latest objs q x Hs Hlast r Hr) as Hle.
  destruct (decide (x = r)) as [|Hne]; [done|].
  assert (Hx : x ∈ q).
  { apply last_Some in Hlast as [q' ->]. apply elem_of_app. right. by left. }
  specialize (Hlatest x Hx Hne). lia.
Qed.

(** On a queue in ascending order the loop of [purgeNotLoadedTiles] leaves
    the tiles requested at [time] or later, and only them. *)
Lemma purgeLoop_sorted time c :
  wf c →
  StronglySorted (byRequestTime (tiles c)) (loadRequests_ c) →
  ∀ r, r ∈ loadRequests_ (purgeLoop time (loadRequests_ c) c) ↔
       r ∈ loadRequests_ c ∧ time ≤ requestTimeAt (tiles c) r.
Proof.
  intros Hwf Hsorted r.
  destruct (purgeLoop_spec time (loadRequests_ c) c eq_refl Hwf) as (k & Hk).
  cbv zeta in Hk.
  destruct Hk as (_ & _ & _ & _ & _ & _ & _ & _ & Hq & _ & Hall & Hhd).
  rewrite Hq. rewrite <-(take_drop k (loadRequests_ c)) in Hsorted.
  split.
  - intros Hr. split; [by eapply subseteq_drop|].
    destruct (drop k (loadRequests_ c)) as [|h rest] eqn:Hdrop;
      [by apply elem_of_nil in Hr|].
    specialize (Hhd h eq_refl).
    apply StronglySorted_app_1_r, StronglySorted_cons in Hsorted as [Hh _].
    apply elem_of_cons in Hr as [->|Hr]; [done|].
    rewrite Forall_forall in Hh. specialize (Hh r Hr).
    unfold byRequestTime in Hh. lia.
  - intros [Hr Htime].
    rewrite <-(take_drop k (loadRequests_ c)) in Hr.
    apply elem_of_app in Hr as [Hr|Hr]; [|done].
    rewrite Forall_forall in Hall. specialize (Hall r Hr). simpl in Hall. lia.
Qed.

(** X6: in every state a cache reaches, every tile of the map that is in
    state Preparing is in the queue: no request is forgotten. *)
Theorem preparing_queued c :
  reachable loadingTileCounter loadTile c →
  ∀ r tile, stored c r tile → Tile.state tile = PREPARING →
    r ∈ loadRequests_ c.
Proof.
  induction 1 as [now p|op c Hreach IH].
  { intros r tile [_ Hm]. simpl in Hm. by rewrite lookup_empty in Hm. }
  pose proof (reachable_wf _ _ c Hreach) as Hwf.
  assert (Hsame : ∀ c' : TileCache P,
    tileMap_ c' = tileMap_ c → loadRequests_ c' = loadRequests_ c →
    (∀ r tile, tiles c' !! r = Some tile → Tile.state tile = PREPARING →
       ∃ tile0, tiles c !! r = Some tile0 ∧
                Tile.getKey tile0 = Tile.getKey tile ∧
                Tile.state tile0 = PREPARING) →
    ∀ r tile, stored c' r tile → Tile.state tile = PREPARING →
      r ∈ loadRequests_ c').
  { intros c' Hm Hq Ht r tile [Hr Hk] Hs. rewrite Hq.
    destruct (Ht r tile Hr Hs) as (tile0 & Hr0 & Hkey & Hs0).
    apply (IH r tile0); [|done]. split; [done|]. by rewrite Hkey, <-Hm. }
  assert (Halter : ∀ (f : Tile.t → Tile.t) r0 r tile,
    (∀ t, Tile.getKey (f t) = Tile.getKey t) →
    (∀ t, Tile.state (f t) = PREPARING → Tile.state t = PREPARING) →
    alter f r0 (tiles c) !! r = Some tile → Tile.state tile = PREPARING →
    ∃ tile0, tiles c !! r = Some tile0 ∧
             Tile.getKey tile0 = Tile.getKey tile ∧
             Tile.state tile0 = PREPARING).
  { intros f r0 r tile Hkey Hstate. rewrite list_lookup_alter.
    case_decide as Hd; [subst r0|by exists tile].
    destruct (tiles c !! r) as [tile0|]; [|done]. simpl.
    intros [= <-] Hs. exists tile0. by rewrite Hkey, (Hstate tile0 Hs). }
  destruct op; cbn [apply_op].
  - unfold retrieveTile, getTileFromCache.
    destruct (tileMap_ c !! Tile.createKey zoom x y) as [r0|] eqn:Hk; simpl.
    + apply Hsame; [done..|]. intros r tile. by apply Halter.
    + intros r tile [Hr Hm] Hs. simpl in Hr, Hm.
      apply elem_of_app. rewrite lookup_insert in Hm.
      case_decide as Hd; [right; injection Hm as <-; by left|left].
      destruct (wf_map c Hwf _ r Hm) as (tile0 & Hr0 & _).
      rewrite lookup_app_l in Hr by by eapply lookup_lt_Some.
      by apply (IH r tile).
  - unfold updateRequestTime. destruct (getTileFromCache key c); [|done].
    apply Hsame; [done..|]. intros r tile. by apply Halter.
  - pose proof (NoDup_cleanableSorted c Hwf) as Hnd.
    destruct (cleanLoop_spec (cleanableSorted c) c Hwf Hnd) as (k & Hk).
    { intros r (tile & Hst & _)%elem_of_cleanableSorted; [|done].
      by exists tile. }
    cbv zeta in Hk.
    change (cleanLoop (cleanableSorted c) c) with (cleanCache c) in Hk.
    destruct Hk as (_ & Ht & _ & _ & _ & _ & _ & _ & Hmap & Hq & _).
    intros r tile [Hr Hm] Hs. apply Hmap in Hm as [Hm Hn].
    apply Hq. split; [|done]. apply (IH r tile); [|done].
    split; [by rewrite <-Ht|done].
  - destruct (purgeLoop_spec (now - timeLimit) (loadRequests_ c) c eq_refl Hwf)
      as (k & Hk).
    cbv zeta in Hk.
    change (purgeLoop (now - timeLimit) (loadRequests_ c) c)
      with (purgeNotLoadedTiles now timeLimit c) in Hk.
    destruct Hk as (_ & Ht & _ & _ & _ & _ & _ & _ & Hq & Hmap & _).
    intros r tile [Hr Hm] Hs. apply Hmap in Hm as [Hm Hn].
    assert (Hin : r ∈ loadRequests_ c).
    { apply (IH r tile); [|done]. split; [by rewrite <-Ht|done]. }
    rewrite Hq. rewrite <-(take_drop k (loadRequests_ c)) in Hin.
    by apply elem_of_app in Hin as [?|?].
  - destruct (processLoadRequests_spec loadingTileCounter loadTile
                tilesToBeLoading c Hwf) as (offers & Hspec).
    cbv zeta in Hspec.
    destruct Hspec as (_ & _ & _ & Hq & Hacc & _ & _ & _ & Ht & Hm & _).
    intros r tile [Hr Hk] Hs. rewrite Ht in Hr. rewrite Hm in Hk.
    destruct (decide (r ∈ acceptedOf offers)) as [Hin|Hin].
    { destruct (tiles c !! r) as [tile0|]; [|done].
      injection Hr as <-. done. }
    assert (Hrq : r ∈ loadRequests_ c) by (by apply (IH r tile)).
    apply (elem_of_sortByRequestTime (tiles c)) in Hrq.
    rewrite Hq.
    rewrite <-(take_drop (length (sortByRequestTime (tiles c) (loadRequests_ c))
                          - length (acceptedOf offers))
                 (sortByRequestTime (tiles c) (loadRequests_ c))) in Hrq.
    apply elem_of_app in Hrq as [?|Hrq]; [done|].
    exfalso. apply Hin. rewrite Hacc. by apply elem_of_reverse.
  - intros r tile [_ Hm]. simpl in Hm. by rewrite lookup_empty in Hm.
  - exact IH.
  - unfold providerLoaded. destruct (tiles c !! r) as [tile0|] eqn:Hr0; [|done].
    case_decide as Hs0; [|done].
    destruct (tileLoaded__store r
                (with_tiles (alter (Tile.set_state LOADED) r (tiles c)) c))
      as (_ & Hm & Hq & _).
    apply Hsame; [done..|]. intros r' tile.
    unfold tileLoaded_. simpl. rewrite list_lookup_alter_eq, Hr0. simpl.
    case_decide; simpl.
    + rewrite list_lookup_alter. case_decide as Hd.
      * subst r'. rewrite list_lookup_alter_eq, Hr0. simpl.
        by intros [= <-].
      * by apply Halter.
    + by apply Halter.
  - unfold providerFailed. destruct (tiles c !! r) as [tile0|] eqn:Hr0; [|done].
    case_decide as Hs0; [|done].
    apply Hsame; [done..|]. intros r' tile. by apply Halter.
  - exact IH.
Qed.

End QueueProperties.

(** ** The operations together *)

Section Composition.

Context {P : Type}.
Variable loadingTileCounter : P → Z.
Variable loadTile : P → TileRef → Tile.t → bool * P.

Implicit Types c : TileCache P.

(** X7: on a well-formed cache whose queue is in ascending order of
    [requestTime], [purgeNotLoadedTiles] removes from the queue every tile
    requested before [now - timeLimit] and no other tile. *)
Theorem purgeNotLoadedTiles_sorted now timeLimit c :
  wf c →
  StronglySorted (byRequestTime (tiles c)) (loadRequests_ c) →
  ∀ r, r ∈ loadRequests_ (purgeNotLoadedTiles now timeLimit c) ↔
       r ∈ loadRequests_ c ∧ now - timeLimit ≤ requestTimeAt (tiles c) r.
Proof. intros Hwf Hsorted. by apply purgeLoop_sorted. Qed.

(** X8: on a well-formed cache a second [purgeNotLoadedTiles] at the same
    time with the same limit does nothing. *)
Theorem purgeNotLoadedTiles_idempotent now timeLimit c :
  wf c →
  purgeNotLoadedTiles now timeLimit (purgeNotLoadedTiles now timeLimit c) =
  purgeNotLoadedTiles now timeLimit c.
Proof.
  intros Hwf.
  destruct (purgeLoop_spec (now - timeLimit) (loadRequests_ c) c eq_refl Hwf)
    as (k & Hk).
  cbv zeta in Hk.
  change (purgeLoop (now - timeLimit) (loadRequests_ c) c)
    with (purgeNotLoadedTiles now timeLimit c) in Hk.
  destruct Hk as (_ & Ht & _ & _ & _ & _ & _ & _ & Hq & _ & _ & Hhd).
  set (c' := purgeNotLoadedTiles now timeLimit c) in *.
  unfold purgeNotLoadedTiles at 1.
  destruct (loadRequests_ c') as [|r rest] eqn:Hq'; simpl; [done|].
  destruct (tiles c' !! r) as [tile|] eqn:Hr; [|done].
  rewrite decide_False; [done|].
  rewrite <-Hq in Hhd. specialize (Hhd r eq_refl).
  unfold requestTimeAt in Hhd. rewrite <-Ht, Hr in Hhd. simpl in Hhd. lia.
Qed.

(** X9: on a well-formed cache a round of [processLoadRequests] leaves the
    queue in ascending order of [requestTime], so that a
    [purgeNotLoadedTiles] right after it removes from the queue every tile
    requested before [now - timeLimit] and no other tile. *)
Theorem processLoadRequests_then_purge tilesToBeLoading now timeLimit c :
  wf c →
  let c1 := processLoadRequests loadingTileCounter loadTile tilesToBeLoading c in
  let c2 := purgeNotLoadedTiles now timeLimit c1 in
  StronglySorted (byRequestTime (tiles c1)) (loadRequests_ c1) ∧
  ∀ r, r ∈ loadRequests_ c2 ↔
       r ∈ loadRequests_ c1 ∧ now - timeLimit ≤ requestTimeAt (tiles c1) r.
Proof.
  intros Hwf. cbv zeta.
  destruct (processLoadRequests_spec loadingTileCounter loadTile
              tilesToBeLoading c Hwf) as (offers & Hspec).
  cbv zeta in Hspec. destruct Hspec as (Hwf1 & _ & _ & Hq & _).
  set (c1 := processLoadRequests loadingTileCounter loadTile tilesToBeLoading c)
    in *.
  assert (Hsorted : StronglySorted (byRequestTime (tiles c1)) (loadRequests_ c1)).
  { apply (StronglySorted_byRequestTime_ext (tiles c)).
    - intros r.
      by apply (apply_op_requestTime loadingTileCounter loadTile
                  (ProcessLoadRequests tilesToBeLoading) c r).
    - rewrite Hq.
      pose proof (sortByRequestTime_sorted (tiles c) (loadRequests_ c)) as Hs.
      rewrite <-(take_drop (length (sortByRequestTime (tiles c) (loadRequests_ c))
                            - length (acceptedOf offers))
                   (sortByRequestTime (tiles c) (loadRequests_ c))) in Hs.
      by apply StronglySorted_app_1_l in Hs. }
  split; [done|]. by apply purgeLoop_sorted.
Qed.

(** X10: on a well-formed cache a second [cleanCache] does nothing, and
    [cleanCache] does nothing at all when the map has no more than
    [targetSize] tiles. *)
Theorem cleanCache_idempotent c :
  wf c →
  cleanCache (cleanCache c) = cleanCache c ∧
  (Z.of_nat (size (tileMap_ c)) ≤ targetSize c → cleanCache c = c).
Proof.
  intros Hwf.
  assert (Hsmall : ∀ c0 : TileCache P,
    Z.of_nat (size (tileMap_ c0)) ≤ targetSize c0 → cleanCache c0 = c0).
  { intros c0 Hle. unfold cleanCache.
    destruct (sortByRequestTime _ _); simpl; [done|].
    by rewrite decide_False by lia. }
  split; [|apply Hsmall].
  pose proof (NoDup_cleanableSorted c Hwf) as Hnd.
  destruct (cleanLoop_spec (cleanableSorted c) c Hwf Hnd) as (k & Hk).
  { intros r (tile & Hst & _)%elem_of_cleanableSorted; [|done]. by exists tile. }
  cbv zeta in Hk.
  change (cleanLoop (cleanableSorted c) c) with (cleanCache c) in Hk.
  destruct Hk as (Hwf' & Ht & Hts & _ & _ & _ & _ & _ & Hmap & _ & _ & _ & _ & Hstop).
  set (c' := cleanCache c) in *.
  destruct (decide (targetSize c < Z.of_nat (size (tileMap_ c')))) as [Hlt|Hge];
    [|apply Hsmall; lia].
  change (cleanCache c') with (cleanLoop (cleanableSorted c') c').
  assert (Hnil : cleanableSorted c' = []); [|by rewrite Hnil].
  apply elem_of_nil_inv. intros r Hr.
  apply elem_of_cleanableSorted in Hr as (tile & [Hr Hm] & Hcl); [|done].
  apply Hmap in Hm as [Hm Hn]. apply Hn.
  rewrite (Hstop Hlt), take_ge by done.
  apply elem_of_cleanableSorted; [done|]. exists tile.
  split; [|done]. split; [by rewrite <-Ht|done].
Qed.

(** X11: on a well-formed cache a round of [processLoadRequests] leaves the
    map as it is: a tile the provider accepts was in the queue in state
    Preparing, stays in the map, now in state Loading, and is no more in
    the queue; the other Tile objects are left as they are. *)
Theorem processLoadRequests_keeps_store tilesToBeLoading c :
  wf c →
  let c' := processLoadRequests loadingTileCounter loadTile tilesToBeLoading c in
  tileMap_ c' = tileMap_ c ∧
  ∃ offers : list (TileRef * bool),
    loadCalls c' = loadCalls c ++ offers ∧
    (∀ r, (r, true) ∈ offers →
       ∃ tile, stored c r tile ∧ Tile.state tile = PREPARING ∧
               r ∈ loadRequests_ c ∧
               stored c' r (Tile.set_state LOADING tile) ∧
               r ∉ loadRequests_ c') ∧
    (∀ r, (r, true) ∉ offers → tiles c' !! r = tiles c !! r).
Proof.
  intros Hwf. cbv zeta.
  destruct (processLoadRequests_spec loadingTileCounter loadTile
              tilesToBeLoading c Hwf) as (offers & Hspec).
  cbv zeta in Hspec.
  destruct Hspec as (_ & Hcalls & _ & Hq & Hacc & _ & _ & Hoff & Ht & Hm & _).
  split; [done|]. exists offers. split_and!; [done| |].
  - intros r Hr.
    assert (Hrq : r ∈ loadRequests_ c).
    { apply (elem_of_sortByRequestTime (tiles c)). by apply (Hoff (r, true)). }
    destruct (wf_queue c Hwf r Hrq) as (tile & [Hr0 Hk] & Hs).
    exists tile. split_and!; [done|done|done| |].
    + split; [|by rewrite Hm].
      rewrite Ht, decide_True by by apply elem_of_acceptedOf.
      by rewrite Hr0.
    + rewrite Hq. intros Hin.
      pose proof (wf_nodup c Hwf) as Hnd.
      apply (NoDup_sortByRequestTime (tiles c)) in Hnd.
      rewrite <-(take_drop (length (sortByRequestTime (tiles c) (loadRequests_ c))
                            - length (acceptedOf offers))
                   (sortByRequestTime (tiles c) (loadRequests_ c))) in Hnd.
      apply NoDup_app in Hnd as (_ & Hn & _). apply (Hn r Hin).
      apply elem_of_reverse. rewrite <-Hacc. by apply elem_of_acceptedOf.
  - intros r Hr. rewrite Ht, decide_False; [done|].
    by rewrite elem_of_acceptedOf.
Qed.

(** X12: on a well-formed cache, when the provider has room for one tile
    more, a round of [processLoadRequests] offers first the tile of the
    queue that was requested later than every other one. *)
Theorem latest_request_offered_first tilesToBeLoading c r :
  wf c →
  r ∈ loadRequests_ c →
  (∀ r', r' ∈ loadRequests_ c → r' ≠ r →
     requestTimeAt (tiles c) r' < requestTimeAt (tiles c) r) →
  0 < tilesToBeLoading - loadingTileCounter (tileProvider_ c) →
  ∃ (accepted : bool) (offers : list (TileRef * bool)),
    loadCalls (processLoadRequests loadingTileCounter loadTile
                 tilesToBeLoading c)
    = loadCalls c ++ (r, accepted) :: offers.
Proof.
  intros Hwf Hr Hlatest Hroom.
  destruct (processLoadRequests_spec loadingTileCounter loadTile
              tilesToBeLoading c Hwf) as (offers & Hspec).
  cbv zeta in Hspec.
  destruct Hspec as (_ & Hcalls & Hlen & _ & _ & Hhd & _).
  destruct offers as [|[r0 accepted] offers].
  { exfalso. simpl in Hlen.
    assert (0 < length (loadRequests_ c))%nat; [|lia].
    destruct (loadRequests_ c); [by apply elem_of_nil in Hr|simpl; lia]. }
  specialize (Hhd (r0, accepted) eq_refl). simpl in Hhd.
  assert (r0 = r) as ->.
  { apply (last_sorted_strict (tiles c)
             (sortByRequestTime (tiles c) (loadRequests_ c))).
    - apply sortByRequestTime_sorted.
    - done.
    - by apply elem_of_sortByRequestTime.
    - intros r' Hr'%elem_of_sortByRequestTime. by apply Hlatest. }
  by exists accepted, offers.
Qed.

(** X13: on a well-formed cache, [updateRequestTime] of a tile of the queue
    with a time later than the request times of all other tiles of the
    queue makes this tile the first one offered by the next round, when the
    provider has room for one tile more. *)
Theorem updateRequestTime_raises_priority key requestTime tilesToBeLoading c r :
  wf c →
  tileMap_ c !! key = Some r →
  r ∈ loadRequests_ c →
  (∀ r', r' ∈ loadRequests_ c → r' ≠ r →
     requestTimeAt (tiles c) r' < requestTime) →
  0 < tilesToBeLoading - loadingTileCounter (tileProvider_ c) →
  ∃ (accepted : bool) (offers : list (TileRef * bool)),
    loadCalls (processLoadRequests loadingTileCounter loadTile
                 tilesToBeLoading (updateRequestTime key requestTime c))
    = loadCalls c ++ (r, accepted) :: offers.
Proof.
  intros Hwf Hk Hr Hlatest Hroom.
  pose proof (wf_updateRequestTime key requestTime c Hwf) as Hwf1.
  rewrite (updateRequestTime_present key requestTime c r Hk) in *.
  set (c1 := with_tiles _ c) in *.
  destruct (wf_queue c Hwf r Hr) as (tile & [Ht _] & _).
  assert (Htimes : ∀ r', requestTimeAt (tiles c1) r' =
                         if decide (r' = r) then requestTime
                         else requestTimeAt (tiles c) r').
  { intros r'. subst c1. unfold requestTimeAt. simpl.
    rewrite list_lookup_alter. case_decide as Hd.
    - subst r'. rewrite decide_True by done. by rewrite Ht.
    - by rewrite decide_False by congruence. }
  destruct (processLoadRequests_spec loadingTileCounter loadTile
              tilesToBeLoading c1 Hwf1) as (offers & Hspec).
  cbv zeta in Hspec.
  destruct Hspec as (_ & Hcalls & Hlen & _ & _ & Hhd & _).
  destruct offers as [|[r0 accepted] offers].
  { exfalso. simpl in Hlen.
    assert (0 < length (loadRequests_ c))%nat; [|subst c1; simpl in *; lia].
    destruct (loadRequests_ c); [by apply elem_of_nil in Hr|simpl; lia]. }
  specialize (Hhd (r0, accepted) eq_refl). simpl in Hhd.
  assert (r0 = r) as ->.
  { apply (last_sorted_strict (tiles c1)
             (sortByRequestTime (tiles c1) (loadRequests_ c1))).
    - apply sortByRequestTime_sorted.
    - done.
    - by apply elem_of_sortByRequestTime.
    - intros r' Hr'%elem_of_sortByRequestTime Hne.
      rewrite !Htimes.
      rewrite (decide_False (P := r' = r)) by done.
      rewrite (decide_True (P := r = r)) by done.
      by apply Hlatest. }
  by exists accepted, offers.
Qed.

End Composition.

(** ** The size of the map after [cleanCache] *)

Section CleanSize.

Context {P : Type}.

Implicit Types c : TileCache P.

(** X14: on a well-formed cache [cleanCache] removes as many tiles as the
    map has above [targetSize], or all the tiles in state Loaded, Preparing
    or Error when these are fewer. *)
Theorem cleanCache_size c :
  wf c →
  (size (tileMap_ (cleanCache c)) =
   size (tileMap_ c)
   - Nat.min (length (cleanableSorted c))
       (Z.to_nat (Z.of_nat (size (tileMap_ c)) - targetSize c)))%nat.
Proof.
  intros Hwf.
  pose proof (NoDup_cleanableSorted c Hwf) as Hnd.
  destruct (cleanLoop_spec (cleanableSorted c) c Hwf Hnd) as (k & Hk).
  { intros r (tile & Hst & _)%elem_of_cleanableSorted; [|done]. by exists tile. }
  cbv zeta in Hk.
  change (cleanLoop (cleanableSorted c) c) with (cleanCache c) in Hk.
  destruct Hk as (_ & _ & _ & _ & _ & _ & _ & _ & _ & _ & Hsize & Hkl & Hmin & Hstop).
  destruct (decide (targetSize c < Z.of_nat (size (tileMap_ (cleanCache c)))))
    as [Hlt|Hge].
  - specialize (Hstop Hlt). lia.
  - destruct k as [|k']; [lia|].
    assert (Hm : targetSize c < Z.of_nat (size (tileMap_ (cleanCache c))) + 1)
      by (apply Hmin; lia).
    lia.
Qed.

End CleanSize.

(** ** The selector and the scene *)

Section SelectorFacts.

Context {TP : Type}.

Implicit Types s : TileProviderSelector.t TP.

Lemma in_sync_calls s :
  TileProviderSelector.in_sync s → TileProviderSelector.items s ≠ [] →
  TileProviderSelector.changeCalls s ≠ [].
Proof.
  intros (Hnone & Hsome & _) Hitems Hcalls.
  destruct (TileProviderSelector.selected s) as [item|] eqn:Hsel.
  - destruct (Hsome item eq_refl) as (tp & _ & Hlast).
    rewrite Hcalls in Hlast. done.
  - by destruct (Hnone eq_refl).
Qed.

Lemma head_snoc {A} (l : list A) (a : A) : l ≠ [] → head (l ++ [a]) = head l.
Proof. by destruct l. Qed.

Lemma in_sync_handle e s :
  TileProviderSelector.in_sync s →
  TileProviderSelector.in_sync (TileProviderSelector.handle e s).
Proof.
  intros Hs. pose proof Hs as (Hnone & Hsome & Hhead).
  destruct e as [tp opt|item]; simpl.
  - unfold TileProviderSelector.addTileProvider. cbv zeta. simpl.
    destruct (TileProviderSelector.truthy opt
              || bool_decide (length (TileProviderSelector.items s ++ [tp])
                              = 1%nat)) eqn:Hcond.
    + split_and!; simpl; [done| |].
      * intros item [= <-]. exists tp. split; [|apply last_snoc].
        by rewrite lookup_app_r, Nat.sub_diag by done.
      * destruct (TileProviderSelector.items s) as [|tp0 l] eqn:Hitems.
        -- destruct (TileProviderSelector.selected s) as [item|] eqn:Hsel.
           ++ by destruct (Hsome item eq_refl) as (? & ? & _).
           ++ destruct (Hnone eq_refl) as [_ ->]. done.
        -- rewrite head_snoc; [done|].
           apply in_sync_calls; [done|]. by rewrite Hitems.
    + apply orb_false_iff in Hcond as [_ Hlen%bool_decide_eq_false].
      assert (Hitems : TileProviderSelector.items s ≠ []).
      { intros Hnil. apply Hlen. by rewrite Hnil. }
      split_and!; simpl.
      * intros Hsel. by destruct (Hnone Hsel).
      * intros item Hsel. destruct (Hsome item Hsel) as (tp' & Hi & Hlast).
        exists tp'. split; [|done].
        rewrite lookup_app_l; [done|]. by eapply lookup_lt_Some.
      * by rewrite head_snoc.
  - unfold TileProviderSelector.onAction.
    destruct (TileProviderSelector.items s !! item) as [value|] eqn:Hi; [|done].
    split_and!; simpl; [done| |].
    + intros item' [= <-]. exists value. split; [done|apply last_snoc].
    + rewrite head_snoc; [done|]. apply in_sync_calls; [done|].
      intros Hnil. by rewrite Hnil in Hi.
Qed.

(** X15: whatever providers are added to a new selector, with or without
    [opt_select], and whatever items the user chooses, the scene was last
    given the provider of the item selected, an item is selected as soon
    as the selector has one, and the first provider given to the scene is
    the first one added. *)
Theorem selector_in_sync (events : list (TileProviderSelector.Event TP)) :
  let s := TileProviderSelector.run events TileProviderSelector.new in
  (TileProviderSelector.selected s = None →
     TileProviderSelector.items s = [] ∧
     TileProviderSelector.changeCalls s = []) ∧
  (∀ item, TileProviderSelector.selected s = Some item →
     ∃ tileprovider,
       TileProviderSelector.items s !! item = Some tileprovider ∧
       last (TileProviderSelector.changeCalls s) = Some tileprovider) ∧
  head (TileProviderSelector.changeCalls s) =
    head (TileProviderSelector.items s).
Proof.
  cbv zeta.
  assert (Hrun : ∀ s,
    TileProviderSelector.in_sync s →
    TileProviderSelector.in_sync (TileProviderSelector.run events s)).
  { induction events as [|e events IH]; intros s Hs; simpl; [done|].
    by apply IH, in_sync_handle. }
  apply Hrun. by split_and!.
Qed.

End SelectorFacts.

(** ** Runs for the further properties *)

Lemma map_invariant_witness :
  reachable scripted_loadingTileCounter scripted_loadTile three_loaded ∧
  ∀ key1 key2 r,
    tileMap_ three_loaded !! key1 = Some r →
    tileMap_ three_loaded !! key2 = Some r → key1 = key2.
Proof.
  assert (Hr : reachable scripted_loadingTileCounter scripted_loadTile
                 three_loaded) by apply scripted_run_reachable.
  split; [exact Hr|].
  exact (proj2 (map_invariant scripted_loadingTileCounter scripted_loadTile
                  _ Hr)).
Defined.

Lemma store_sizes_witness :
  reachable scripted_loadingTileCounter scripted_loadTile (two_requests 0 []) ∧
  (length (loadRequests_ (two_requests 0 []))
   ≤ size (tileMap_ (two_requests 0 [])))%nat ∧
  (size (tileMap_ (two_requests 0 []))
   ≤ length (tiles (two_requests 0 [])))%nat.
Proof.
  assert (Hr : reachable scripted_loadingTileCounter scripted_loadTile
                 (two_requests 0 [])) by apply scripted_run_reachable.
  split; [exact Hr|].
  exact (store_sizes scripted_loadingTileCounter scripted_loadTile _ Hr).
Defined.

Lemma disposed_once_witness :
  reachable scripted_loadingTileCounter scripted_loadTile
    (scripted_run [CleanCache] three_loaded) ∧
  NoDup (disposeCalls (scripted_run [CleanCache] three_loaded)).
Proof.
  assert (Hr : reachable scripted_loadingTileCounter scripted_loadTile
                 (scripted_run [CleanCache] three_loaded)).
  { apply reachable_run, scripted_run_reachable. }
  split; [exact Hr|].
  exact (proj1 (disposed_once scripted_loadingTileCounter scripted_loadTile
                  _ Hr)).
Defined.

Lemma preparing_queued_witness :
  reachable scripted_loadingTileCounter scripted_loadTile (two_requests 0 []) ∧
  stored (two_requests 0 []) 1%nat (Tile.mk 2 1 2 10 PREPARING) ∧
  1%nat ∈ loadRequests_ (two_requests 0 []).
Proof.
  assert (Hr : reachable scripted_loadingTileCounter scripted_loadTile
                 (two_requests 0 [])) by apply scripted_run_reachable.
  assert (Hst : stored (two_requests 0 []) 1%nat (Tile.mk 2 1 2 10 PREPARING))
    by (split; reflexivity).
  split; [exact Hr|]. split; [exact Hst|].
  exact (preparing_queued scripted_loadingTileCounter scripted_loadTile
           _ Hr 1%nat _ Hst eq_refl).
Defined.

Lemma sorted_two_sorted :
  StronglySorted (byRequestTime (tiles two_sorted)) (loadRequests_ two_sorted).
Proof.
  change (loadRequests_ two_sorted) with [1%nat; 0%nat].
  repeat constructor. unfold byRequestTime. vm_compute. discriminate.
Qed.

Lemma purgeNotLoadedTiles_sorted_witness :
  wf two_sorted ∧
  StronglySorted (byRequestTime (tiles two_sorted)) (loadRequests_ two_sorted) ∧
  ∀ r, r ∈ loadRequests_ (purgeNotLoadedTiles 25 10 two_sorted) ↔
       r ∈ loadRequests_ two_sorted ∧
       25 - 10 ≤ requestTimeAt (tiles two_sorted) r.
Proof.
  split; [exact wf_two_sorted|]. split; [exact sorted_two_sorted|].
  exact (purgeNotLoadedTiles_sorted 25 10 two_sorted wf_two_sorted
           sorted_two_sorted).
Defined.

Lemma purgeNotLoadedTiles_idempotent_witness :
  wf two_sorted ∧
  purgeNotLoadedTiles 25 10 (purgeNotLoadedTiles 25 10 two_sorted) =
  purgeNotLoadedTiles 25 10 two_sorted.
Proof.
  split; [exact wf_two_sorted|].
  exact (purgeNotLoadedTiles_idempotent 25 10 two_sorted wf_two_sorted).
Defined.

Lemma processLoadRequests_then_purge_witness :
  wf (two_requests 0 [true]) ∧
  StronglySorted
    (byRequestTime
       (tiles (processLoadRequests scripted_loadingTileCounter
                 scripted_loadTile 1 (two_requests 0 [true]))))
    (loadRequests_ (processLoadRequests scripted_loadingTileCounter
                      scripted_loadTile 1 (two_requests 0 [true]))).
Proof.
  split; [apply wf_two_requests|].
  exact (proj1 (processLoadRequests_then_purge scripted_loadingTileCounter
                  scripted_loadTile 1 25 10 (two_requests 0 [true])
                  (wf_two_requests 0 [true]))).
Defined.

Lemma cleanCache_idempotent_witness :
  wf three_loaded ∧
  cleanCache (cleanCache three_loaded) = cleanCache three_loaded.
Proof.
  split; [exact wf_three_loaded|].
  exact (proj1 (cleanCache_idempotent three_loaded wf_three_loaded)).
Defined.

Lemma processLoadRequests_keeps_store_witness :
  wf (two_requests 0 [true]) ∧
  tileMap_ (processLoadRequests scripted_loadingTileCounter scripted_loadTile
              1 (two_requests 0 [true]))
  = tileMap_ (two_requests 0 [true]).
Proof.
  split; [apply wf_two_requests|].
  exact (proj1 (processLoadRequests_keeps_store scripted_loadingTileCounter
                  scripted_loadTile 1 (two_requests 0 [true])
                  (wf_two_requests 0 [true]))).
Defined.

Lemma latest_of_two_requests r' :
  r' ∈ loadRequests_ (two_requests 0 [true]) → r' ≠ 0%nat →
  requestTimeAt (tiles (two_requests 0 [true])) r' <
  requestTimeAt (tiles (two_requests 0 [true])) 0%nat.
Proof.
  change (loadRequests_ (two_requests 0 [true])) with [0%nat; 1%nat].
  intros [->|Hr'%list_elem_of_singleton]%elem_of_cons Hne; [done|].
  subst r'. reflexivity.
Qed.

Lemma latest_request_offered_first_witness :
  wf (two_requests 0 [true]) ∧
  0%nat ∈ loadRequests_ (two_requests 0 [true]) ∧
  0 < 1 - scripted_loadingTileCounter (tileProvider_ (two_requests 0 [true])) ∧
  ∃ (accepted : bool) (offers : list (TileRef * bool)),
    loadCalls (processLoadRequests scripted_loadingTileCounter
                 scripted_loadTile 1 (two_requests 0 [true]))
    = loadCalls (two_requests 0 [true]) ++ (0%nat, accepted) :: offers.
Proof.
  assert (Hin : 0%nat ∈ loadRequests_ (two_requests 0 [true])) by (by left).
  assert (Hroom : 0 < 1 - scripted_loadingTileCounter
                          (tileProvider_ (two_requests 0 [true])))
    by reflexivity.
  split; [apply wf_two_requests|]. split; [exact Hin|]. split; [exact Hroom|].
  exact (latest_request_offered_first scripted_loadingTileCounter
           scripted_loadTile 1 (two_requests 0 [true]) 0%nat
           (wf_two_requests 0 [true]) Hin latest_of_two_requests Hroom).
Defined.

Lemma others_before_30 r' :
  r' ∈ loadRequests_ (two_requests 0 [true]) → r' ≠ 1%nat →
  requestTimeAt (tiles (two_requests 0 [true])) r' < 30.
Proof.
  change (loadRequests_ (two_requests 0 [true])) with [0%nat; 1%nat].
  intros [->|Hr'%list_elem_of_singleton]%elem_of_cons Hne; [reflexivity|done].
Qed.

Lemma updateRequestTime_raises_priority_witness :
  wf (two_requests 0 [true]) ∧
  tileMap_ (two_requests 0 [true]) !! Tile.createKey 2 1 2 = Some 1%nat ∧
  1%nat ∈ loadRequests_ (two_requests 0 [true]) ∧
  ∃ (accepted : bool) (offers : list (TileRef * bool)),
    loadCalls (processLoadRequests scripted_loadingTileCounter
                 scripted_loadTile 1
                 (updateRequestTime (Tile.createKey 2 1 2) 30
                    (two_requests 0 [true])))
    = loadCalls (two_requests 0 [true]) ++ (1%nat, accepted) :: offers.
Proof.
  assert (Hk : tileMap_ (two_requests 0 [true]) !! Tile.createKey 2 1 2
               = Some 1%nat) by reflexivity.
  assert (Hin : 1%nat ∈ loadRequests_ (two_requests 0 [true]))
    by (right; by left).
  assert (Hroom : 0 < 1 - scripted_loadingTileCounter
                          (tileProvider_ (two_requests 0 [true])))
    by reflexivity.
  split; [apply wf_two_requests|]. split; [exact Hk|]. split; [exact Hin|].
  exact (updateRequestTime_raises_priority scripted_loadingTileCounter
           scripted_loadTile _ 30 1 (two_requests 0 [true]) 1%nat
           (wf_two_requests 0 [true]) Hk Hin others_before_30 Hroom).
Defined.

Lemma cleanCache_size_witness :
  wf three_loaded ∧
  (size (tileMap_ (cleanCache three_loaded)) =
   size (tileMap_ three_loaded)
   - Nat.min (length (cleanableSorted three_loaded))
       (Z.to_nat (Z.of_nat (size (tileMap_ three_loaded))
                  - targetSize three_loaded)))%nat.
Proof.
  split; [exact wf_three_loaded|].
  exact (cleanCache_size three_loaded wf_three_loaded).
Defined.
